(** * pinentry-touchid: the GetPIN callback of [main.go]

    A shallow embedding of [main.go]: the two description patterns
    ([emailRegex], [keyIDRegex]), the three keychain helpers
    ([checkEntryInKeychain], [passwordFromKeychain],
    [storePasswordInKeychain]), the prompt helper call ([askForPassword])
    and the [GetPIN] callback, followed by the properties of the callback.

    Go strings and byte slices are byte sequences: a Go [string] is a
    [string] of 8-bit [ascii] here and [len] is [String.length]; a [[]byte]
    is a [list ascii].  Calls that leave the process (keychain, Touch ID,
    pinentry-mac, the loggers) are events of a program tree; [log.Fatalf]
    is an output followed by [os.Exit(1)], and an index out of range is a
    panic. *)

From Stdlib Require Import List String Ascii ZArith Lia Bool Arith.
Import ListNotations.
Local Open Scope list_scope.
Local Open Scope string_scope.

Arguments Ascii.eqb : simpl never.

(* ================================================================= *)
(** ** Go strings *)

Module GoString.

Definition newline : ascii := "010"%char.
Definition dquote : ascii := "034"%char.

Definition bytes := list ascii.

(** [string(b)] for [b []byte]. *)
Definition string_of_bytes (b : bytes) : string := string_of_list_ascii b.

(** [strings.HasPrefix(s, p)]. *)
Fixpoint HasPrefix (s p : string) {struct p} : bool :=
  match p, s with
  | EmptyString, _ => true
  | String _ _, EmptyString => false
  | String a p', String b s' => Ascii.eqb a b && HasPrefix s' p'
  end.

(** The scan of [strings.Split(s, sep)] for a non-empty [sep]: [skip]
    counts the bytes of a separator still to be stepped over, [cur] is the
    piece being built. *)
Fixpoint split_scan (sep : string) (skip : nat) (cur : string) (s : string)
  : list string :=
  match s with
  | EmptyString => [cur]
  | String c s' =>
      match skip with
      | S n => split_scan sep n cur s'
      | O =>
          if HasPrefix s sep
          then cur :: split_scan sep (String.length sep - 1) EmptyString s'
          else split_scan sep 0 (cur ++ String c EmptyString) s'
      end
  end.

(** [strings.Split(s, sep)], [sep] not empty (both separators of
    [main.go] are literals). *)
Definition Split (s sep : string) : list string := split_scan sep 0 EmptyString s.

(** [strings.Join(l, sep)]. *)
Fixpoint Join (l : list string) (sep : string) : string :=
  match l with
  | [] => EmptyString
  | [x] => x
  | x :: l' => x ++ sep ++ Join l' sep
  end.

(** [strings.ReplaceAll(s, old, new)], [old] not empty: the pieces between
    the non-overlapping occurrences of [old], joined by [new]. *)
Definition ReplaceAll (s old new : string) : string := Join (Split s old) new.

(** No byte of [s] is [c]. *)
Fixpoint lacks (c : ascii) (s : string) : bool :=
  match s with
  | EmptyString => true
  | String a s' => negb (Ascii.eqb a c) && lacks c s'
  end.

(** The part of [s] after its first [c], if [c] occurs. *)
Fixpoint after_first (c : ascii) (s : string) : option string :=
  match s with
  | EmptyString => None
  | String a s' => if Ascii.eqb a c then Some s' else after_first c s'
  end.

(** The part of [s] before its first [c], all of [s] when [c] does not
    occur. *)
Fixpoint before_first (c : ascii) (s : string) : string :=
  match s with
  | EmptyString => EmptyString
  | String a s' => if Ascii.eqb a c then EmptyString else String a (before_first c s')
  end.

End GoString.

Import GoString.

(* ================================================================= *)
(** ** The patterns of [regexp.MustCompile] *)

Module Regexp.

(** The fragment of RE2 syntax that the two patterns use.  [DotStar] is
    the greedy [.*]; without the [s] flag [.] matches any character but
    a newline.  The literals of both patterns are ASCII, and an ASCII
    byte is never part of a longer UTF-8 sequence, so matching byte by
    byte agrees with matching rune by rune. *)
Inductive regex : Type :=
| Lit (c : ascii)
| DotStar
| Cat (r1 r2 : regex)
| Group (n : nat) (r : regex).

(** Submatches, indexed by group number. *)
Definition caps := nat -> option string.
Definition no_caps : caps := fun _ => None.
Definition set_cap (n : nat) (v : string) (c : caps) : caps :=
  fun m => if Nat.eqb m n then Some v else c m.

(** The text consumed between the input [s] and its suffix [rest]. *)
Definition consumed (s rest : string) : string :=
  substring 0 (String.length s - String.length rest) s.

Section Match.
Variable R : Type.

(** Greedy [.*]: the longest run first, then shorter ones. *)
Fixpoint dotstar (s : string) (k : string -> option R) : option R :=
  match s with
  | EmptyString => k s
  | String c s' =>
      if Ascii.eqb c newline then k s
      else match dotstar s' k with
           | Some r => Some r
           | None => k s
           end
  end.

(** Backtracking match of [r] at the head of [s]; [k] is what must
    still match.  Go's leftmost-first result is by definition the one
    a backtracking search finds first. *)
Fixpoint rmatch (r : regex) (s : string) (c : caps)
         (k : string -> caps -> option R) : option R :=
  match r with
  | Lit a =>
      match s with
      | String b s' => if Ascii.eqb a b then k s' c else None
      | EmptyString => None
      end
  | DotStar => dotstar s (fun s' => k s' c)
  | Cat r1 r2 => rmatch r1 s c (fun s' c' => rmatch r2 s' c' k)
  | Group n r1 => rmatch r1 s c (fun s' c' => k s' (set_cap n (consumed s s') c'))
  end.
End Match.

Arguments dotstar {R} s k.
Arguments rmatch {R} r s c k.

(** The match of [r] that starts at the head of [s]: the whole match
    followed by groups [1..ngroups]; a group that took no part is the
    empty string. *)
Definition match_here (ngroups : nat) (r : regex) (s : string) : option (list string) :=
  rmatch r s no_caps
    (fun s' c =>
       Some (consumed s s'
               :: map (fun n => match c n with Some v => v | None => EmptyString end)
                      (seq 1 ngroups))).

(** The leftmost match: the first start position with a match. *)
Fixpoint find_submatch (ngroups : nat) (r : regex) (s : string)
  : option (list string) :=
  match match_here ngroups r s with
  | Some m => Some m
  | None =>
      match s with
      | EmptyString => None
      | String _ s' => find_submatch ngroups r s'
      end
  end.

(** [re.FindStringSubmatch(s)]; without a match the result is Go's [nil]
    slice, of length 0. *)
Definition FindStringSubmatch (ngroups : nat) (r : regex) (s : string)
  : list string :=
  match find_submatch ngroups r s with
  | Some m => m
  | None => []
  end.

End Regexp.

Import Regexp.

(** [emailRegex]: a double quote; group 1 ([name]), which is a greedy
    any-run, [<], group 2 ([email], a greedy any-run) and [>]; a double
    quote. *)
Definition emailRegex : regex :=
  Cat (Lit dquote)
      (Cat (Group 1 (Cat DotStar (Cat (Lit "<") (Cat (Group 2 DotStar) (Lit ">")))))
           (Lit dquote)).

(** [keyIDRegex]: the literal [ID ], group 1 ([keyId], a greedy any-run),
    a comma. *)
Definition keyIDRegex : regex :=
  Cat (Lit "I") (Cat (Lit "D") (Cat (Lit " ") (Cat (Group 1 DotStar) (Lit ",")))).

Definition emailRegex_groups : nat := 2.

Definition keyIDRegex_groups : nat := 1.

(* ================================================================= *)
(** ** Values exchanged with the packages [main.go] imports *)

(** Go [error] values, as far as [main.go] tells them apart: a
    [keychain.Error] status, an error built by [fmt.Errorf], or an error of
    another package. *)
Inductive error : Type :=
| KeychainError (code : Z)
| Errorf (format : string) (args : list Arg)
| OpaqueError (msg : string)
with Arg : Type :=
| ArgString (s : string)
| ArgError (e : error).

(** [keychain.ErrorDuplicateItem] ([errSecDuplicateItem]). *)
Definition ErrorDuplicateItem : error := KeychainError (-25299).

(** [err == keychain.ErrorDuplicateItem]. *)
Definition is_ErrorDuplicateItem (e : error) : bool :=
  match e with
  | KeychainError c => Z.eqb c (-25299)
  | _ => false
  end.

Inductive SecClass := SecClassGenericPassword | SecClassInternetPassword.

Inductive MatchLimit := MatchLimitOne | MatchLimitAll.

Inductive Synchronizable := SynchronizableAny | SynchronizableYes | SynchronizableNo.

Inductive Accessible :=
| AccessibleWhenUnlocked | AccessibleAfterFirstUnlock | AccessibleAlways.

(** [keychain.Item]: the attributes set so far. *)
Record Item : Type := {
  itSecClass : option SecClass;
  itService : option string;
  itAccount : option string;
  itLabel : option string;
  itData : option bytes;
  itMatchLimit : option MatchLimit;
  itReturnData : option bool;
  itReturnAttributes : option bool;
  itSynchronizable : option Synchronizable;
  itAccessible : option Accessible
}.

Definition NewItem : Item :=
  {| itSecClass := None; itService := None; itAccount := None; itLabel := None;
     itData := None; itMatchLimit := None; itReturnData := None;
     itReturnAttributes := None; itSynchronizable := None; itAccessible := None |}.

Definition SetSecClass (v : SecClass) (i : Item) : Item :=
  {| itSecClass := Some v; itService := itService i; itAccount := itAccount i;
     itLabel := itLabel i; itData := itData i; itMatchLimit := itMatchLimit i;
     itReturnData := itReturnData i; itReturnAttributes := itReturnAttributes i;
     itSynchronizable := itSynchronizable i; itAccessible := itAccessible i |}.

Definition SetService (v : string) (i : Item) : Item :=
  {| itSecClass := itSecClass i; itService := Some v; itAccount := itAccount i;
     itLabel := itLabel i; itData := itData i; itMatchLimit := itMatchLimit i;
     itReturnData := itReturnData i; itReturnAttributes := itReturnAttributes i;
     itSynchronizable := itSynchronizable i; itAccessible := itAccessible i |}.

Definition SetAccount (v : string) (i : Item) : Item :=
  {| itSecClass := itSecClass i; itService := itService i; itAccount := Some v;
     itLabel := itLabel i; itData := itData i; itMatchLimit := itMatchLimit i;
     itReturnData := itReturnData i; itReturnAttributes := itReturnAttributes i;
     itSynchronizable := itSynchronizable i; itAccessible := itAccessible i |}.

Definition SetLabel (v : string) (i : Item) : Item :=
  {| itSecClass := itSecClass i; itService := itService i; itAccount := itAccount i;
     itLabel := Some v; itData := itData i; itMatchLimit := itMatchLimit i;
     itReturnData := itReturnData i; itReturnAttributes := itReturnAttributes i;
     itSynchronizable := itSynchronizable i; itAccessible := itAccessible i |}.

Definition SetData (v : bytes) (i : Item) : Item :=
  {| itSecClass := itSecClass i; itService := itService i; itAccount := itAccount i;
     itLabel := itLabel i; itData := Some v; itMatchLimit := itMatchLimit i;
     itReturnData := itReturnData i; itReturnAttributes := itReturnAttributes i;
     itSynchronizable := itSynchronizable i; itAccessible := itAccessible i |}.

Definition SetMatchLimit (v : MatchLimit) (i : Item) : Item :=
  {| itSecClass := itSecClass i; itService := itService i; itAccount := itAccount i;
     itLabel := itLabel i; itData := itData i; itMatchLimit := Some v;
     itReturnData := itReturnData i; itReturnAttributes := itReturnAttributes i;
     itSynchronizable := itSynchronizable i; itAccessible := itAccessible i |}.

Definition SetReturnData (v : bool) (i : Item) : Item :=
  {| itSecClass := itSecClass i; itService := itService i; itAccount := itAccount i;
     itLabel := itLabel i; itData := itData i; itMatchLimit := itMatchLimit i;
     itReturnData := Some v; itReturnAttributes := itReturnAttributes i;
     itSynchronizable := itSynchronizable i; itAccessible := itAccessible i |}.

Definition SetReturnAttributes (v : bool) (i : Item) : Item :=
  {| itSecClass := itSecClass i; itService := itService i; itAccount := itAccount i;
     itLabel := itLabel i; itData := itData i; itMatchLimit := itMatchLimit i;
     itReturnData := itReturnData i; itReturnAttributes := Some v;
     itSynchronizable := itSynchronizable i; itAccessible := itAccessible i |}.

Definition SetSynchronizable (v : Synchronizable) (i : Item) : Item :=
  {| itSecClass := itSecClass i; itService := itService i; itAccount := itAccount i;
     itLabel := itLabel i; itData := itData i; itMatchLimit := itMatchLimit i;
     itReturnData := itReturnData i; itReturnAttributes := itReturnAttributes i;
     itSynchronizable := Some v; itAccessible := itAccessible i |}.

Definition SetAccessible (v : Accessible) (i : Item) : Item :=
  {| itSecClass := itSecClass i; itService := itService i; itAccount := itAccount i;
     itLabel := itLabel i; itData := itData i; itMatchLimit := itMatchLimit i;
     itReturnData := itReturnData i; itReturnAttributes := itReturnAttributes i;
     itSynchronizable := itSynchronizable i; itAccessible := Some v |}.

(** [keychain.QueryResult]. *)
Record QueryResult : Type := {
  qrService : string;
  qrAccount : string;
  qrLabel : string;
  qrData : bytes
}.

(** [pinentry.Settings], the fields [main.go] reads. *)
Record Settings : Type := {
  Desc : string;
  KeyInfo : string
}.

(** [common.Error] of go-assuan. *)
Record common_Error : Type := {
  ceCode : Z;
  ceMessage : string
}.

(* ================================================================= *)
(** ** Programs over the outside world *)

(** One constructor per call that leaves [main.go], indexed by the type of
    what the call returns.  [logger_Output] is a line written through the
    [*log.Logger] handed to [GetPIN], [log_Output] a line written through
    the package-level logger of [log]. *)
Inductive extE : Type -> Type :=
| keychain_QueryItem (q : Item) : extE (list QueryResult * option error)
| keychain_AddItem (i : Item) : extE (option error)
| touchid_Authenticate (reason : string) : extE (bool * option error)
| pinentry_New : extE (option error)
| pinentry_GetBinary : extE string
| pinentry_Set (key value : string) : extE (option error)
| pinentry_GetPin : extE (bytes * option error)
| pinentry_Close : extE unit
| logger_Output (format : string) (args : list Arg) : extE unit
| log_Output (format : string) (args : list Arg) : extE unit.

(** How a Go run-time panic of [main.go] arises. *)
Inductive panic : Type :=
| IndexOutOfRange (index len : nat).

Inductive Prog (A : Type) : Type :=
| Ret (a : A)
| Exit (code : Z)
| Panic (p : panic)
| Vis (X : Type) (e : extE X) (k : X -> Prog A).

Arguments Ret {A} a.

Arguments Exit {A} code.

Arguments Panic {A} p.

Arguments Vis {A X} e k.

Fixpoint bind {A B : Type} (p : Prog A) (f : A -> Prog B) : Prog B :=
  match p with
  | Ret a => f a
  | Exit c => Exit c
  | Panic m => Panic m
  | Vis e k => Vis e (fun x => bind (k x) f)
  end.

Definition call {X : Type} (e : extE X) : Prog X := Vis e Ret.

Declare Scope prog_scope.

Delimit Scope prog_scope with prog.

Notation "x <- p ;; q" := (bind p (fun x => q))
  (at level 61, p at next level, right associativity) : prog_scope.

Notation "' pat <- p ;; q" := (bind p (fun x => match x with pat => q end))
  (at level 61, pat pattern, p at next level, right associativity) : prog_scope.

Notation "p ;; q" := (bind p (fun _ => q))
  (at level 61, right associativity) : prog_scope.

Local Open Scope prog_scope.

(** [l[i]] on a slice. *)
Definition index {A : Type} (l : list A) (i : nat) : Prog A :=
  match nth_error l i with
  | Some v => Ret v
  | None => Panic (IndexOutOfRange i (List.length l))
  end.

(** [logger.Printf] and [log.Printf]. *)
Definition logger_Printf (format : string) (args : list Arg) : Prog unit :=
  call (logger_Output format args).

Definition log_Printf (format : string) (args : list Arg) : Prog unit :=
  call (log_Output format args).

(** [logger.Fatalf]: [Printf] followed by [os.Exit(1)]; nothing after it
    runs. *)
Definition logger_Fatalf {A : Type} (format : string) (args : list Arg) : Prog A :=
  logger_Printf format args ;; Exit 1.

(* ================================================================= *)
(** ** The functions of [main.go] *)

Definition nl : string := String newline EmptyString.

(** The [query] of [checkEntryInKeychain]: attributes and no data. *)
Definition check_query (label : string) : Item :=
  let query := NewItem in
  let query := SetSecClass SecClassGenericPassword query in
  let query := SetLabel label query in
  let query := SetMatchLimit MatchLimitOne query in
  let query := SetReturnData false query in
  let query := SetReturnAttributes true query in
  query.

(** [checkEntryInKeychain]. *)
Definition checkEntryInKeychain (label : string) : Prog (bool * option error) :=
  '(results, err) <- call (keychain_QueryItem (check_query label)) ;;
  match err with
  | Some e => Ret (false, Some e)
  | None => Ret (Nat.eqb (List.length results) 1, None)
  end.

(** The [query] of [passwordFromKeychain]: the data is asked for. *)
Definition read_query (label : string) : Item :=
  let query := NewItem in
  let query := SetSecClass SecClassGenericPassword query in
  let query := SetLabel label query in
  let query := SetMatchLimit MatchLimitOne query in
  let query := SetReturnData true query in
  query.

(** [passwordFromKeychain]. *)
Definition passwordFromKeychain (label : string) : Prog (string * option error) :=
  '(results, err) <- call (keychain_QueryItem (read_query label)) ;;
  match err with
  | Some e => Ret (EmptyString, Some e)
  | None =>
      if Nat.ltb 1 (List.length results)
      then Ret (EmptyString, Some (Errorf "multiple passwords matched the query" []))
      else r <- index results 0 ;;
           Ret (string_of_bytes (qrData r), None)
  end.

(** The [item] of [storePasswordInKeychain]. *)
Definition store_item (label keyInfo : string) (pin : bytes) : Item :=
  let item := NewItem in
  let item := SetSecClass SecClassGenericPassword item in
  let item := SetService "GnuPG" item in
  let item := SetAccount keyInfo item in
  let item := SetLabel label item in
  let item := SetData pin item in
  let item := SetSynchronizable SynchronizableNo item in
  let item := SetAccessible AccessibleWhenUnlocked item in
  item.

(** [storePasswordInKeychain]. *)
Definition storePasswordInKeychain (label keyInfo : string) (pin : bytes)
  : Prog (option error) :=
  err <- call (keychain_AddItem (store_item label keyInfo pin)) ;;
  match err with
  | Some e => Ret (Some e)
  | None => Ret None
  end.

(** [askForPassword]; the deferred [p.Close()] runs once [p.GetPin()] has
    returned. *)
Definition askForPassword (s : Settings) : Prog (bytes * option error) :=
  err <- call pinentry_New ;;
  match err with
  | Some e =>
      binary <- call pinentry_GetBinary ;;
      Ret ([], Some (Errorf "failed to start %q: %w" [ArgString binary; ArgError e]))
  | None =>
      call (pinentry_Set "title" "pinentry-mac-touchid PIN Prompt") ;;
      call (pinentry_Set "desc" (ReplaceAll (Desc s) nl "\n")) ;;
      call (pinentry_Set "prompt" "Please enter your PIN:") ;;
      call (pinentry_Set "KEYINFO" (KeyInfo s)) ;;
      r <- call pinentry_GetPin ;;
      call pinentry_Close ;;
      Ret r
  end.

Definition AuthFunc := string -> Prog (bool * option error).

Definition GetPinFunc := Settings -> Prog (string * option common_Error).

(** [fmt.Sprintf] with the format of the keychain label. *)
Definition keychainLabel_of (name email keyID : string) : string :=
  name ++ " <" ++ email ++ "> (" ++ keyID ++ ")".

(** [fmt.Sprintf] with the format of the Touch ID reason. *)
Definition auth_reason (label : string) : string := "access the PIN for " ++ label.

(** [if cond { body }] for a body without a result. *)
Definition when (cond : bool) (body : Prog unit) : Prog unit :=
  if cond then body else Ret tt.

(** [if err != nil { body }]. *)
Definition if_err (err : option error) (body : error -> Prog unit) : Prog unit :=
  match err with
  | Some e => body e
  | None => Ret tt
  end.

(** The first-capture branch of [GetPIN], lines 179 to 214. *)
Definition capture (s : Settings) (keychainLabel : string)
  : Prog (string * option common_Error) :=
  '(pin, err) <- askForPassword s ;;
  if_err err (fun e => logger_Printf "Error calling pinentry-mac: %s" [ArgError e]) ;;
  when (Nat.eqb (List.length pin) 0)
       (logger_Fatalf "pinentry-mac didn't return a password" []) ;;
  keyInfo <- index (Split (KeyInfo s) "/") 1 ;;
  '(exists_, err) <- checkEntryInKeychain keychainLabel ;;
  if_err err (fun e => logger_Fatalf "error checking entry in keychain: %s" [ArgError e]) ;;
  (if negb exists_
   then
     err <- storePasswordInKeychain keychainLabel keyInfo pin ;;
     match err with
     | Some e =>
         when (is_ErrorDuplicateItem e)
              (logger_Fatalf "Duplicated entry in the keychain" [])
     | None => Ret tt
     end
   else
     logger_Printf
       "The keychain entry was created by pinentry-mac. Permission will be required on next run."
       []) ;;
  Ret (string_of_bytes pin, None).

(** The repeat-access branch of [GetPIN], lines 217 to 234. *)
Definition release (fn : AuthFunc) (keychainLabel : string)
  : Prog (string * option common_Error) :=
  '(ok, err) <- fn (auth_reason keychainLabel) ;;
  match err with
  | Some e => logger_Fatalf "Error authenticating with Touch ID: %s" [ArgError e]
  | None =>
      if negb ok
      then logger_Printf "Failed to authenticate" [] ;;
           Ret (EmptyString, None)
      else
        '(password, err) <- passwordFromKeychain keychainLabel ;;
        if_err err (fun e =>
          log_Printf "Error fetching password from Keychain %s" [ArgError e]) ;;
        Ret (password, None)
  end.

(** The identity fields of a description, lines 153 to 161, and the label
    of line 163. *)
Definition parse_label (desc : string) : Prog string :=
  let matches := FindStringSubmatch emailRegex_groups emailRegex desc in
  m1 <- index matches 1 ;;
  name <- index (Split m1 " <") 0 ;;
  email <- index matches 2 ;;
  let matches := FindStringSubmatch keyIDRegex_groups keyIDRegex desc in
  keyID <- index matches 1 ;;
  when (negb (Nat.eqb (String.length keyID) 8) && negb (Nat.eqb (String.length keyID) 16))
       (logger_Fatalf "Invalid keyID: %s" [ArgString keyID]) ;;
  Ret (keychainLabel_of name email keyID).

(** [GetPIN(fn, logger)]. *)
Definition GetPIN (fn : AuthFunc) : GetPinFunc :=
  fun s =>
    keychainLabel <- parse_label (Desc s) ;;
    '(exists_, err) <- checkEntryInKeychain keychainLabel ;;
    if_err err (fun e => logger_Fatalf "error checking entry in keychain: %s" [ArgError e]) ;;
    if negb exists_
    then capture s keychainLabel
    else release fn keychainLabel.

(** The callback that [main] registers: [fn] is [touchid.Authenticate]. *)
Definition GetPIN_callback : GetPinFunc :=
  GetPIN (fun reason => call (touchid_Authenticate reason)).

(** [Confirm] and [Msg] print to standard output, which is not modelled. *)
Definition Confirm (_ : Settings) : Prog (bool * option common_Error) := Ret (true, None).

Definition Msg (_ : Settings) : Prog (option common_Error) := Ret None.

(* ================================================================= *)
(** ** Running a program against an environment *)

(** What became of a call of the callback. *)
Inductive Outcome (A : Type) : Type :=
| Returned (a : A)
| Exited (code : Z)
| Panicked (p : panic).

Arguments Returned {A} a.

Arguments Exited {A} code.

Arguments Panicked {A} p.

(** An environment answers every external call from a state of its own. *)
Record Env : Type := {
  St : Type;
  handle : forall X : Type, extE X -> St -> X * St
}.

Arguments handle e {X}.

(** An external call with its answer. *)
Inductive Entry : Type :=
| Call (X : Type) (e : extE X) (x : X).

Arguments Call {X} e x.

Definition Trace := list Entry.

Fixpoint run {A : Type} (env : Env) (p : Prog A) (st : St env)
  : Outcome A * Trace * St env :=
  match p with
  | Ret a => (Returned a, [], st)
  | Exit c => (Exited c, [], st)
  | Panic m => (Panicked m, [], st)
  | Vis e k =>
      let '(x, st1) := handle env e st in
      let '(o, tr, st2) := run env (k x) st1 in
      (o, Call e x :: tr, st2)
  end.

Definition outcome_of {A S : Type} (r : Outcome A * Trace * S) : Outcome A := fst (fst r).

Definition trace_of {A S : Type} (r : Outcome A * Trace * S) : Trace := snd (fst r).

Definition state_of {A S : Type} (r : Outcome A * Trace * S) : S := snd r.

(* ================================================================= *)
(** ** What a trace shows *)

(** A line of log output: through the logger handed to [GetPIN] (the log
    file) or through the package-level logger. *)
Inductive LogLine : Type :=
| FileLine (format : string) (args : list Arg)
| StdLine (format : string) (args : list Arg).

Definition entry_log (en : Entry) : list LogLine :=
  match en with
  | Call e _ =>
      match e with
      | logger_Output f a => [FileLine f a]
      | log_Output f a => [StdLine f a]
      | _ => []
      end
  end.

(** The log output of a run, in order. *)
Definition log_of (tr : Trace) : list LogLine := flat_map entry_log tr.

Definition entry_query (en : Entry) : list Item :=
  match en with
  | Call e _ => match e with keychain_QueryItem q => [q] | _ => [] end
  end.

Definition asks_data (q : Item) : bool :=
  match itReturnData q with
  | Some true => true
  | _ => false
  end.

(** The keychain searches of a run that ask for the stored data. *)
Definition reads_of (tr : Trace) : list Item :=
  filter asks_data (flat_map entry_query tr).

Definition entry_added (en : Entry) : list Item :=
  match en with
  | Call e _ => match e with keychain_AddItem i => [i] | _ => [] end
  end.

(** The items a run hands to [keychain.AddItem]. *)
Definition added_of (tr : Trace) : list Item := flat_map entry_added tr.

Definition entry_auth (en : Entry) : list (bool * option error) :=
  match en with
  | Call e x =>
      match e in extE X return X -> list (bool * option error) with
      | touchid_Authenticate _ => fun r => [r]
      | _ => fun _ => []
      end x
  end.

(** The answers of Touch ID in a run. *)
Definition auth_of (tr : Trace) : list (bool * option error) := flat_map entry_auth tr.

Definition entry_prompt (en : Entry) : list (bytes * option error) :=
  match en with
  | Call e x =>
      match e in extE X return X -> list (bytes * option error) with
      | pinentry_GetPin => fun r => [r]
      | _ => fun _ => []
      end x
  end.

(** What pinentry-mac handed back in a run. *)
Definition prompts_of (tr : Trace) : list (bytes * option error) :=
  flat_map entry_prompt tr.

Definition is_read (en : Entry) : bool :=
  match entry_query en with
  | [q] => asks_data q
  | _ => false
  end.

Definition is_allow (en : Entry) : bool :=
  match entry_auth en with
  | [(true, None)] => true
  | _ => false
  end.

Definition is_add (en : Entry) : bool :=
  match entry_added en with
  | [] => false
  | _ => true
  end.

Definition is_check_of (label : string) (en : Entry) : bool :=
  match entry_query en with
  | [q] => negb (asks_data q) &&
           match itLabel q with Some l => String.eqb l label | None => false end
  | _ => false
  end.

Definition is_prompt (en : Entry) : bool :=
  match entry_prompt en with
  | [] => false
  | _ => true
  end.

(** Every entry that satisfies [guarded] comes after one that satisfies
    [guard]; [seen] tells whether a guard has been met already. *)
Fixpoint preceded (guard guarded : Entry -> bool) (seen : bool) (tr : Trace) : bool :=
  match tr with
  | [] => true
  | en :: tr' =>
      (if guarded en then seen else true)
      && preceded guard guarded (seen || guard en) tr'
  end.

(** Every read of stored data comes after an allowing answer of Touch ID. *)
Definition reads_gated (tr : Trace) : bool := preceded is_allow is_read false tr.

(** Every [AddItem] comes after an existence check of [label] that itself
    comes after the prompt. *)
Fixpoint add_rechecked (label : string) (prompted rechecked : bool) (tr : Trace) : bool :=
  match tr with
  | [] => true
  | en :: tr' =>
      (if is_add en then rechecked else true)
      && add_rechecked label (prompted || is_prompt en)
           (rechecked || (prompted && is_check_of label en)) tr'
  end.

(** The answers the keychain gave to the searches of a run. *)
Definition entry_answer (en : Entry) : list (Item * (list QueryResult * option error)) :=
  match en with
  | Call e x =>
      match e in extE X return X -> list (Item * (list QueryResult * option error)) with
      | keychain_QueryItem q => fun r => [(q, r)]
      | _ => fun _ => []
      end x
  end.

Definition query_answers (tr : Trace) : list (Item * (list QueryResult * option error)) :=
  flat_map entry_answer tr.

(** The answers the keychain gave to the [AddItem] calls of a run. *)
Definition entry_add_answer (en : Entry) : list (Item * option error) :=
  match en with
  | Call e x =>
      match e in extE X return X -> list (Item * option error) with
      | keychain_AddItem i => fun r => [(i, r)]
      | _ => fun _ => []
      end x
  end.

Definition add_answers (tr : Trace) : list (Item * option error) :=
  flat_map entry_add_answer tr.

(** The pin that [askForPassword] got from pinentry-mac in a run; none when
    pinentry-mac was never asked. *)
Definition captured (tr : Trace) : bytes :=
  match prompts_of tr with
  | (pin, _) :: _ => pin
  | [] => []
  end.

(** What the keychain's answer to an existence check means to
    [checkEntryInKeychain]. *)
Definition says_found (a : list QueryResult * option error) : bool :=
  match a with
  | (results, None) => Nat.eqb (List.length results) 1
  | (_, Some _) => false
  end.

Definition says_absent (a : list QueryResult * option error) : bool :=
  match a with
  | (results, None) => negb (Nat.eqb (List.length results) 1)
  | (_, Some _) => false
  end.

(** The error [passwordFromKeychain] reports for an answer of the keychain. *)
Definition read_failure (a : list QueryResult * option error) : option error :=
  match a with
  | (_, Some e) => Some e
  | (results, None) =>
      if Nat.ltb 1 (List.length results)
      then Some (Errorf "multiple passwords matched the query" [])
      else None
  end.

Definition no_password : LogLine := FileLine "pinentry-mac didn't return a password" [].

(* ================================================================= *)
(** ** Reference environments *)

Module World.

(** Modelled from the spec: the secure-storage service, Touch ID and
    pinentry-mac, which live outside this repository.  The store keeps
    [SecretRecord]s keyed by label ([existsMetadataOnly], [read],
    [create] with its [DuplicateEntry]); the Authenticator answers
    [touch]; the PromptHelper hands back [typed] and, as a side effect,
    may save [helper_saves] itself.  [query_fault] and [add_fault] make
    the backend fail. *)
Record SecretRecord : Type := {
  label : string;
  account : string;
  payload : bytes
}.

Record world : Type := {
  store : list SecretRecord;
  typed : bytes;
  helper_saves : list SecretRecord;
  helper_start : option error;
  helper_error : option error;
  touch : bool * option error;
  query_fault : option error;
  add_fault : option error;
  logged : list LogLine
}.

Definition with_store (st : list SecretRecord) (w : world) : world :=
  {| store := st; typed := typed w; helper_saves := helper_saves w;
     helper_start := helper_start w; helper_error := helper_error w;
     touch := touch w; query_fault := query_fault w; add_fault := add_fault w;
     logged := logged w |}.

Definition with_logged (l : list LogLine) (w : world) : world :=
  {| store := store w; typed := typed w; helper_saves := helper_saves w;
     helper_start := helper_start w; helper_error := helper_error w;
     touch := touch w; query_fault := query_fault w; add_fault := add_fault w;
     logged := l |}.

Definition opt_string (o : option string) : string :=
  match o with Some v => v | None => EmptyString end.

Definition has_label (l : string) (r : SecretRecord) : bool := String.eqb (label r) l.

Definition to_result (with_data : bool) (r : SecretRecord) : QueryResult :=
  {| qrService := "GnuPG"; qrAccount := account r; qrLabel := label r;
     qrData := if with_data then payload r else [] |}.

Definition query (q : Item) (w : world) : list QueryResult * option error :=
  match query_fault w with
  | Some e => ([], Some e)
  | None =>
      let hits := filter (has_label (opt_string (itLabel q))) (store w) in
      let hits := match itMatchLimit q with
                  | Some MatchLimitOne => firstn 1 hits
                  | _ => hits
                  end in
      (map (to_result (asks_data q)) hits, None)
  end.

Definition add (i : Item) (w : world) : option error * world :=
  match add_fault w with
  | Some e => (Some e, w)
  | None =>
      if existsb (has_label (opt_string (itLabel i))) (store w)
      then (Some ErrorDuplicateItem, w)
      else (None,
            with_store (store w ++
                        [{| label := opt_string (itLabel i);
                            account := opt_string (itAccount i);
                            payload := match itData i with Some d => d | None => [] end |}])
                       w)
  end.

Definition answer (X : Type) (e : extE X) (w : world) : X * world :=
  match e in extE X return X * world with
  | keychain_QueryItem q => (query q w, w)
  | keychain_AddItem i => add i w
  | touchid_Authenticate _ => (touch w, w)
  | pinentry_New => (helper_start w, w)
  | pinentry_GetBinary => ("pinentry-mac", w)
  | pinentry_Set _ _ => (None, w)
  | pinentry_GetPin =>
      ((typed w, helper_error w),
       match typed w with
       | [] => w
       | _ => with_store (store w ++ helper_saves w) w
       end)
  | pinentry_Close => (tt, w)
  | logger_Output f a => (tt, with_logged (logged w ++ [FileLine f a]) w)
  | log_Output f a => (tt, with_logged (logged w ++ [StdLine f a]) w)
  end.

Definition env : Env := {| St := world; handle := answer |}.

(** A world with an empty store, a user who types [pin] and a finger
    that Touch ID accepts. *)
Definition fresh (pin : bytes) : world :=
  {| store := []; typed := pin; helper_saves := []; helper_start := None;
     helper_error := None; touch := (true, None); query_fault := None;
     add_fault := None; logged := [] |}.

End World.

(** An environment that answers from a script: each kind of call takes
    the next answer of its own list, and a default once the list is used
    up.  Any sequence of answers can be played this way. *)
Module Script.

Record script : Type := {
  queries : list (list QueryResult * option error);
  adds : list (option error);
  auths : list (bool * option error);
  start : option error;
  pins : list (bytes * option error)
}.

Definition answer (X : Type) (e : extE X) (sc : script) : X * script :=
  match e in extE X return X * script with
  | keychain_QueryItem _ =>
      match queries sc with
      | a :: rest =>
          (a, {| queries := rest; adds := adds sc; auths := auths sc;
                 start := start sc; pins := pins sc |})
      | [] => (([], None), sc)
      end
  | keychain_AddItem _ =>
      match adds sc with
      | a :: rest =>
          (a, {| queries := queries sc; adds := rest; auths := auths sc;
                 start := start sc; pins := pins sc |})
      | [] => (None, sc)
      end
  | touchid_Authenticate _ =>
      match auths sc with
      | a :: rest =>
          (a, {| queries := queries sc; adds := adds sc; auths := rest;
                 start := start sc; pins := pins sc |})
      | [] => ((false, None), sc)
      end
  | pinentry_New => (start sc, sc)
  | pinentry_GetBinary => ("pinentry-mac", sc)
  | pinentry_Set _ _ => (None, sc)
  | pinentry_GetPin =>
      match pins sc with
      | a :: rest =>
          (a, {| queries := queries sc; adds := adds sc; auths := auths sc;
                 start := start sc; pins := rest |})
      | [] => (([], None), sc)
      end
  | pinentry_Close => (tt, sc)
  | logger_Output _ _ => (tt, sc)
  | log_Output _ _ => (tt, sc)
  end.

Definition env : Env := {| St := script; handle := answer |}.

End Script.

(** World fields that a call of the callback never changes. *)
Definition same_setup (w w' : World.world) : Prop :=
  World.typed w' = World.typed w /\
  World.helper_saves w' = World.helper_saves w /\
  World.helper_start w' = World.helper_start w /\
  World.helper_error w' = World.helper_error w /\
  World.query_fault w' = World.query_fault w /\
  World.add_fault w' = World.add_fault w.

(* ================================================================= *)
(** ** Requests and scenarios *)

(** Descriptions as gpg-agent words them. *)
Definition quoted (s : string) : string :=
  String dquote EmptyString ++ s ++ String dquote EmptyString.

Definition description (user keyID : string) : string :=
  "Please enter the passphrase to unlock the OpenPGP secret key:" ++ nl ++
  quoted user ++ nl ++
  "2048-bit RSA key, ID " ++ keyID ++ "," ++ nl ++
  "created 2020-01-01.".

Definition alice_desc : string := description "Alice <alice@example.com>" "A1B2C3D4".

Definition alice_label : string := "Alice <alice@example.com> (A1B2C3D4)".

Definition alice : Settings := {| Desc := alice_desc; KeyInfo := "n/0123456789ABCDEF" |}.

Definition pin1234 : bytes := list_ascii_of_string "1234".

Definition pin98765 : bytes := list_ascii_of_string "98765".

Definition a_result (data : bytes) : QueryResult :=
  {| qrService := "GnuPG"; qrAccount := "0123456789ABCDEF"; qrLabel := alice_label;
     qrData := data |}.

(** The entry is there when it is looked for and gone when it is read. *)
Definition vanishing : Script.script :=
  {| Script.queries := [([a_result []], None); ([], None)];
     Script.adds := []; Script.auths := [(true, None)]; Script.start := None;
     Script.pins := [] |}.

Definition stored_1234 : Script.script :=
  {| Script.queries := [([a_result []], None); ([a_result pin1234], None)];
     Script.adds := []; Script.auths := [(true, None)]; Script.start := None;
     Script.pins := [] |}.

Definition denied : Script.script :=
  {| Script.queries := [([a_result []], None); ([a_result pin1234], None)];
     Script.adds := []; Script.auths := [(false, None)]; Script.start := None;
     Script.pins := [] |}.

Definition read_error : error := KeychainError (-25308).

Definition unreadable : Script.script :=
  {| Script.queries := [([a_result []], None); ([], Some read_error)];
     Script.adds := []; Script.auths := [(true, None)]; Script.start := None;
     Script.pins := [] |}.

(** A concurrent writer: nothing is found at either check, and [AddItem]
    reports a duplicate. *)
Definition duplicate : Script.script :=
  {| Script.queries := [([], None); ([], None)];
     Script.adds := [Some ErrorDuplicateItem]; Script.auths := []; Script.start := None;
     Script.pins := [(pin1234, None)] |}.

(** The user saved the pin from pinentry-mac: the second check finds it. *)
Definition saved_by_helper : Script.script :=
  {| Script.queries := [([], None); ([a_result []], None)];
     Script.adds := []; Script.auths := []; Script.start := None;
     Script.pins := [(pin1234, None)] |}.

(** An [AddItem] failure that is not a duplicate ([errSecInteractionNotAllowed]). *)
Definition not_allowed : error := KeychainError (-25308).

Definition failing_store (pin : bytes) : World.world :=
  {| World.store := []; World.typed := pin; World.helper_saves := [];
     World.helper_start := None; World.helper_error := None;
     World.touch := (true, None); World.query_fault := None;
     World.add_fault := Some not_allowed; World.logged := [] |}.

Definition user_alice : string := "Alice <alice@example.com>".

Definition key7 : string := "A1B2C3D".

Definition key8 : string := "A1B2C3D4".

Definition key9 : string := "A1B2C3D4E".

Definition key15 : string := "A1B2C3D4E5F6071".

Definition key16 : string := "A1B2C3D4E5F60718".

Definition key17 : string := "A1B2C3D4E5F607182".

Definition desc7 : string := description user_alice key7.

(* ================================================================= *)
(** ** Properties of every run *)

(** [wp p Q]: whatever the environment answers, the outcome and the trace
    of [p] satisfy [Q]. *)
Fixpoint wp {A : Type} (p : Prog A) (Q : Outcome A -> Trace -> Prop) : Prop :=
  match p with
  | Ret a => Q (Returned a) []
  | Exit c => Q (Exited c) []
  | Panic m => Q (Panicked m) []
  | Vis e k => forall x, wp (k x) (fun o tr => Q o (Call e x :: tr))
  end.

(* ================================================================= *)
(** ** Secrets and the log *)

(** An item without its data. *)
Definition without_data (i : Item) : Item :=
  {| itSecClass := itSecClass i; itService := itService i; itAccount := itAccount i;
     itLabel := itLabel i; itData := None; itMatchLimit := itMatchLimit i;
     itReturnData := itReturnData i; itReturnAttributes := itReturnAttributes i;
     itSynchronizable := itSynchronizable i; itAccessible := itAccessible i |}.

(** An external call with the secret bytes left out: the data of an item
    to add is the only secret that [main.go] sends out. *)
Inductive PublicCall : Type :=
| PQuery (q : Item)
| PAdd (i : Item)
| PAuth (reason : string)
| PNew
| PGetBinary
| PSet (key value : string)
| PGetPin
| PClose
| PLog (l : LogLine).

Definition public_call {X : Type} (e : extE X) : PublicCall :=
  match e with
  | keychain_QueryItem q => PQuery q
  | keychain_AddItem i => PAdd (without_data i)
  | touchid_Authenticate reason => PAuth reason
  | pinentry_New => PNew
  | pinentry_GetBinary => PGetBinary
  | pinentry_Set k v => PSet k v
  | pinentry_GetPin => PGetPin
  | pinentry_Close => PClose
  | logger_Output f a => PLog (FileLine f a)
  | log_Output f a => PLog (StdLine f a)
  end.

(** A search result without its data. *)
Definition attributes (r : QueryResult) : string * string * string :=
  (qrService r, qrAccount r, qrLabel r).

(** An answer of the environment with the secret bytes left out: of the
    pin only whether there is one, of a stored record only its attributes. *)
Inductive PublicAnswer : Type :=
| AQuery (found : list (string * string * string)) (err : option error)
| AAdd (err : option error)
| AAuth (ok : bool) (err : option error)
| ANew (err : option error)
| ABinary (name : string)
| ASet (err : option error)
| AGetPin (some_bytes : bool) (err : option error)
| ADone.

Definition some_bytes (b : bytes) : bool :=
  match b with
  | [] => false
  | _ :: _ => true
  end.

Definition public_answer {X : Type} (e : extE X) : X -> PublicAnswer :=
  match e in extE X return X -> PublicAnswer with
  | keychain_QueryItem _ => fun a => AQuery (map attributes (fst a)) (snd a)
  | keychain_AddItem _ => fun a => AAdd a
  | touchid_Authenticate _ => fun a => AAuth (fst a) (snd a)
  | pinentry_New => fun a => ANew a
  | pinentry_GetBinary => fun a => ABinary a
  | pinentry_Set _ _ => fun a => ASet a
  | pinentry_GetPin => fun a => AGetPin (some_bytes (fst a)) (snd a)
  | pinentry_Close => fun _ => ADone
  | logger_Output _ _ => fun _ => ADone
  | log_Output _ _ => fun _ => ADone
  end.

Definition entry_call (en : Entry) : PublicCall :=
  match en with Call e _ => public_call e end.

(** What the run did to the environment, secrets left out. *)
Definition public_calls (tr : Trace) : list PublicCall := map entry_call tr.

(** How a call ended, the returned secret left out: the error handed to
    the caller, the exit status, the panic. *)
Inductive PublicOutcome : Type :=
| OReturned (err : option common_Error)
| OExited (code : Z)
| OPanicked (p : panic).

Definition public_outcome (o : Outcome (string * option common_Error)) : PublicOutcome :=
  match o with
  | Returned (_, e) => OReturned e
  | Exited c => OExited c
  | Panicked p => OPanicked p
  end.

(** Two programs that make the same calls, secrets left out, as long as
    they get the same answers, secrets left out, and that end alike. *)
Fixpoint lowsim (p1 p2 : Prog (string * option common_Error)) : Prop :=
  match p1, p2 with
  | Ret a, Ret b => snd a = snd b
  | Exit c, Exit c' => c = c'
  | Panic m, Panic m' => m = m'
  | Vis e1 k1, Vis e2 k2 =>
      public_call e1 = public_call e2 /\
      forall x1 x2, public_answer e1 x1 = public_answer e2 x2 -> lowsim (k1 x1) (k2 x2)
  | _, _ => False
  end.

(** Two environments that answer alike apart from the secret bytes: from
    states that [R] relates, calls that agree once the secret bytes are
    left out get answers that agree once the secret bytes are left out,
    and leave states that [R] relates. *)
Definition alike (env1 env2 : Env) (R : St env1 -> St env2 -> Prop) : Prop :=
  forall (X1 X2 : Type) (e1 : extE X1) (e2 : extE X2) (st1 : St env1) (st2 : St env2),
    public_call e1 = public_call e2 ->
    R st1 st2 ->
    public_answer e1 (fst (handle env1 e1 st1)) =
      public_answer e2 (fst (handle env2 e2 st2)) /\
    R (snd (handle env1 e1 st1)) (snd (handle env2 e2 st2)).

Definition opt_list {A : Type} (o : option A) : list A :=
  match o with
  | Some a => [a]
  | None => []
  end.

Definition entry_errors (en : Entry) : list error :=
  match en with
  | Call e x =>
      match e in extE X return X -> list error with
      | keychain_QueryItem _ => fun a => opt_list (snd a)
      | keychain_AddItem _ => fun a => opt_list a
      | touchid_Authenticate _ => fun a => opt_list (snd a)
      | pinentry_New => fun a => opt_list a
      | pinentry_GetPin => fun a => opt_list (snd a)
      | _ => fun _ => []
      end x
  end.

(** The error values that the keychain, Touch ID and pinentry-mac
    answered in a run to the calls whose error [main.go] looks at. *)
Definition errors_of (tr : Trace) : list error := flat_map entry_errors tr.

Definition entry_binary (en : Entry) : list string :=
  match en with
  | Call e x =>
      match e in extE X return X -> list string with
      | pinentry_GetBinary => fun a => [a]
      | _ => fun _ => []
      end x
  end.

(** The answers of [pinentryBinary.GetBinary] in a run. *)
Definition binaries_of (tr : Trace) : list string := flat_map entry_binary tr.

Definition line_format (l : LogLine) : string :=
  match l with
  | FileLine f _ => f
  | StdLine f _ => f
  end.

Definition line_args (l : LogLine) : list Arg :=
  match l with
  | FileLine _ a => a
  | StdLine _ a => a
  end.

(** The format strings of the [Printf] and [Fatalf] calls of [GetPIN]. *)
Definition log_formats : list string :=
  [ "Invalid keyID: %s";
    "error checking entry in keychain: %s";
    "Error calling pinentry-mac: %s";
    "pinentry-mac didn't return a password";
    "Duplicated entry in the keychain";
    "The keychain entry was created by pinentry-mac. Permission will be required on next run.";
    "Error authenticating with Touch ID: %s";
    "Failed to authenticate";
    "Error fetching password from Keychain %s" ].

(** A prompt helper that repeats what was typed in the error it reports
    along with the pin; the state is what the user types. *)
Module Echo.

Definition answer (X : Type) (e : extE X) (typed : bytes) : X * bytes :=
  match e in extE X return X * bytes with
  | keychain_QueryItem _ => (([], None), typed)
  | keychain_AddItem _ => (None, typed)
  | touchid_Authenticate _ => ((true, None), typed)
  | pinentry_New => (None, typed)
  | pinentry_GetBinary => ("pinentry-mac", typed)
  | pinentry_Set _ _ => (None, typed)
  | pinentry_GetPin =>
      ((typed, Some (OpaqueError ("unexpected response: " ++ string_of_bytes typed))), typed)
  | pinentry_Close => (tt, typed)
  | logger_Output _ _ => (tt, typed)
  | log_Output _ _ => (tt, typed)
  end.

Definition env : Env := {| St := bytes; handle := answer |}.

End Echo.

(** A keychain answer and a pinentry-mac answer without the secret bytes. *)
Definition public_found (a : list QueryResult * option error)
  : list (string * string * string) * option error :=
  (map attributes (fst a), snd a).

Definition public_pin (a : bytes * option error) : bool * option error :=
  (some_bytes (fst a), snd a).

(** Two scripts that differ in secret bytes only. *)
Definition same_script (a b : Script.script) : Prop :=
  map public_found (Script.queries a) = map public_found (Script.queries b) /\
  Script.adds a = Script.adds b /\
  Script.auths a = Script.auths b /\
  Script.start a = Script.start b /\
  map public_pin (Script.pins a) = map public_pin (Script.pins b).

Definition helper_timeout : error := OpaqueError "assuan: timeout".

(** First capture: pinentry-mac reports an error along with the pin. *)
Definition noisy_capture (pin : bytes) : Script.script :=
  {| Script.queries := [([], None); ([], None)];
     Script.adds := [None]; Script.auths := []; Script.start := None;
     Script.pins := [(pin, Some helper_timeout)] |}.

(** Repeat access to a record that holds [data]. *)
Definition stored_as (data : bytes) : Script.script :=
  {| Script.queries := [([a_result []], None); ([a_result data], None)];
     Script.adds := []; Script.auths := [(true, None)]; Script.start := None;
     Script.pins := [] |}.

(* ================================================================= *)
(** ** What the patterns accept *)

(** The strings a pattern matches. *)
Fixpoint lang (r : regex) (m : string) : Prop :=
  match r with
  | Lit c => m = String c EmptyString
  | DotStar => lacks newline m = true
  | Cat r1 r2 => exists m1 m2, m = m1 ++ m2 /\ lang r1 m1 /\ lang r2 m2
  | Group _ r1 => lang r1 m
  end.

(** A description holds a double-quoted [name <email>] on one line. *)
Definition has_quoted_user (desc : string) : Prop :=
  exists a n e b,
    desc = a ++ quoted (n ++ "<" ++ e ++ ">") ++ b /\
    lacks newline n = true /\ lacks newline e = true.

(** A description holds [ID keyId,] on one line. *)
Definition has_key_id (desc : string) : Prop :=
  exists a k b,
    desc = a ++ "ID " ++ k ++ "," ++ b /\ lacks newline k = true.

(** The [keyID] of line 158, the empty string when there is no match. *)
Definition keyID_of (desc : string) : string :=
  nth 1 (FindStringSubmatch keyIDRegex_groups keyIDRegex desc) EmptyString.

(** A continuation whose success does not depend on the submatches. *)
Definition blind {R : Type} (k : string -> caps -> option R) : Prop :=
  forall (s : string) (c c' : caps), k s c <> None -> k s c' <> None.

(** [len(keyID) != 8 && len(keyID) != 16]. *)
Definition bad_length (keyID : string) : bool :=
  negb (Nat.eqb (String.length keyID) 8) && negb (Nat.eqb (String.length keyID) 16).

(* ================================================================= *)
(** ** Further views, scenarios and line predicates *)

(** What a log line of [GetPIN] is made from: the key id found in the
    description, an error value that a collaborator answered in the run,
    the error of [askForPassword] around such a value, or the error of
    [passwordFromKeychain] for several results. *)
Definition loggable (s : Settings) (tr : Trace) (a : Arg) : Prop :=
  a = ArgString (keyID_of (Desc s)) \/
  (exists e, In e (errors_of tr) /\ a = ArgError e) \/
  (exists b e,
     In b (binaries_of tr) /\ In e (errors_of tr) /\
     a = ArgError (Errorf "failed to start %q: %w" [ArgString b; ArgError e])) \/
  a = ArgError (Errorf "multiple passwords matched the query" []).

(** The keychain fails at the first existence check. *)
Definition check_fails : Script.script :=
  {| Script.queries := [([], Some read_error)];
     Script.adds := []; Script.auths := []; Script.start := None;
     Script.pins := [(pin1234, None)] |}.

(** The keychain fails at the existence check after the prompt. *)
Definition recheck_fails : Script.script :=
  {| Script.queries := [([], None); ([], Some read_error)];
     Script.adds := []; Script.auths := []; Script.start := None;
     Script.pins := [(pin1234, None)] |}.

Definition lockout : error := OpaqueError "biometry is locked out".

(** Touch ID reports an error along with a positive answer. *)
Definition touch_fails : Script.script :=
  {| Script.queries := [([a_result []], None); ([a_result pin1234], None)];
     Script.adds := []; Script.auths := [(true, Some lockout)]; Script.start := None;
     Script.pins := [] |}.

Definition alice_cache_id : string := "0123456789ABCDEF".

Definition gpg_intro : string :=
  "Please enter the passphrase to unlock the OpenPGP secret key:" ++ nl.

Definition check_failed (e : error) : LogLine :=
  FileLine "error checking entry in keychain: %s" [ArgError e].

(** The values handed to [p.Set], with their keys. *)
Definition entry_set (en : Entry) : list (string * string) :=
  match en with
  | Call e _ => match e with pinentry_Set k v => [(k, v)] | _ => [] end
  end.

Definition sets_of (tr : Trace) : list (string * string) := flat_map entry_set tr.

(** The answers of [pinentryBinary.New] in a run. *)
Definition entry_start (en : Entry) : list (option error) :=
  match en with
  | Call e x =>
      match e in extE X return X -> list (option error) with
      | pinentry_New => fun r => [r]
      | _ => fun _ => []
      end x
  end.

Definition starts_of (tr : Trace) : list (option error) := flat_map entry_start tr.

Definition entry_close (en : Entry) : list unit :=
  match en with
  | Call e _ => match e with pinentry_Close => [tt] | _ => [] end
  end.

(** The calls of [p.Close] in a run. *)
Definition closes_of (tr : Trace) : list unit := flat_map entry_close tr.

(** The same world with another answer of Touch ID. *)
Definition with_touch (t : bool * option error) (w : World.world) : World.world :=
  {| World.store := World.store w; World.typed := World.typed w;
     World.helper_saves := World.helper_saves w;
     World.helper_start := World.helper_start w;
     World.helper_error := World.helper_error w;
     World.touch := t; World.query_fault := World.query_fault w;
     World.add_fault := World.add_fault w; World.logged := World.logged w |}.

(** The record that the callback creates. *)
Definition captured_record (label cacheId : string) (pin : bytes) : World.SecretRecord :=
  {| World.label := label; World.account := cacheId; World.payload := pin |}.

(** No [c] on the first line of [s]. *)
Fixpoint line_lacks (c : ascii) (s : string) : bool :=
  match s with
  | EmptyString => true
  | String x s' =>
      if Ascii.eqb x newline then true
      else negb (Ascii.eqb x c) && line_lacks c s'
  end.

(** An occurrence of [p] in [a ++ p] starts inside [a]. *)
Fixpoint starts_inside (p a : string) : bool :=
  match a with
  | EmptyString => false
  | String x a' => HasPrefix (a ++ p) p || starts_inside p a'
  end.

Definition no_slash : Settings := {| Desc := alice_desc; KeyInfo := "0123456789ABCDEF" |}.

(** Key information with a slash in what follows the first slash. *)
Definition two_slashes : Settings := {| Desc := alice_desc; KeyInfo := "n/abc/def" |}.

Definition backslash : ascii := "092"%char.

(** Every newline byte of [s] replaced by a backslash and the letter n,
    the other bytes kept, byte by byte. *)
Fixpoint escape_newlines (s : string) : string :=
  match s with
  | EmptyString => EmptyString
  | String x s' =>
      if Ascii.eqb x newline
      then String backslash (String "n" (escape_newlines s'))
      else String x (escape_newlines s')
  end.

(* ================================================================= *)
(** ** Reasoning along the paths of a program *)

Lemma wp_run :
  forall (A : Type) (p : Prog A) (Q : Outcome A -> Trace -> Prop),
    wp p Q ->
    forall (env : Env) (st : St env),
      Q (outcome_of (run env p st)) (trace_of (run env p st)).
Proof.
  induction p as [a | c | m | X e k IH]; intros Q Hwp env st; simpl in *; auto.
  destruct (handle env e st) as [x st1] eqn:Hx.
  specialize (IH x _ (Hwp x) env st1).
  destruct (run env (k x) st1) as [[o tr] st2].
  exact IH.
Qed.

Arguments auth_reason : simpl never.

Arguments keychainLabel_of : simpl never.

Arguments check_query : simpl never.

Arguments read_query : simpl never.

Arguments store_item : simpl never.

Arguments ReplaceAll : simpl never.

Arguments Split : simpl never.

Arguments string_of_bytes : simpl never.

Arguments is_ErrorDuplicateItem : simpl never.

(** Case analysis on an answer of the environment. *)
Ltac split_answer x :=
  lazymatch type of x with
  | (_ * _)%type =>
      let a := fresh "a" in
      let b := fresh "b" in
      destruct x as [a b]; split_answer a; split_answer b
  | option _ => let e := fresh "err" in destruct x as [e |]
  | bool => destruct x
  | unit => destruct x
  | list QueryResult =>
      let d := fresh "d" in
      let d' := fresh "d" in
      let ds := fresh "ds" in
      destruct x as [| d [| d' ds]]
  | bytes => let c := fresh "c" in let cs := fresh "pin" in destruct x as [| c cs]
  | list ascii => let c := fresh "c" in let cs := fresh "pin" in destruct x as [| c cs]
  | _ => idtac
  end.

Arguments index : simpl never.

Arguments nth_error : simpl nomatch.

Lemma index_cases :
  forall (A : Type) (l : list A) (i : nat),
    match index l i with
    | Ret v => nth_error l i = Some v
    | Panic p => nth_error l i = None /\ p = IndexOutOfRange i (List.length l)
    | _ => False
    end.
Proof.
  intros A l i. unfold index. destruct (nth_error l i); auto.
Qed.

(** One step through a [wp] goal: the next external call, or a case
    analysis on a value that the program tests. *)
Ltac wp_step :=
  cbn;
  first
    [ lazymatch goal with
      | |- forall x, _ =>
          let x := fresh "x" in
          intro x;
          lazymatch type of x with
          | (_ * _)%type => destruct x
          | unit => destruct x
          | _ => idtac
          end
      end
    | match goal with
      | |- wp ?p _ =>
          match p with
          | context [List.length ?l] => is_var l; split_answer l
          | context [if_err ?v _] => is_var v; split_answer v
          | context [negb ?v] => is_var v; split_answer v
          | context [match ?v with _ => _ end] => is_var v; split_answer v
          end
      end
    | lazymatch goal with
      | |- wp ?p _ =>
          lazymatch p with
          | context [index ?l ?i] =>
              let H := fresh "Hidx" in
              pose proof (index_cases _ l i) as H;
              destruct (index l i);
              [ cbn in H; try discriminate H; try (injection H as ->)
              | contradiction
              | destruct H as [H ->]; cbn in H; try discriminate H
              | contradiction ]
          | context [is_ErrorDuplicateItem ?e] =>
              let H := fresh "Hdup" in destruct (is_ErrorDuplicateItem e) eqn:H
          end
      end ].

(** At the end of a path: the postcondition [Q], kept folded so far. *)
Ltac wp_leaf Q :=
  subst Q; cbn; unfold check_query, read_query, store_item; cbn.

(** The three ways [parse_label] ends. *)
Lemma parse_label_cases :
  forall desc : string,
    (exists l, parse_label desc = Ret l) \/
    (exists i n, parse_label desc = Panic (IndexOutOfRange i n)) \/
    (exists k, parse_label desc = logger_Fatalf "Invalid keyID: %s" [ArgString k]).
Proof.
  intros desc. unfold parse_label.
  repeat lazymatch goal with
         | |- context [index ?l ?i] =>
             let H := fresh "Hidx" in
             pose proof (index_cases _ l i) as H;
             destruct (index l i);
             [ cbn | contradiction | destruct H as [H ->]; cbn; eauto | contradiction ]
         end.
  lazymatch goal with |- context [when ?c _] => destruct c end; cbn; eauto.
Qed.

Lemma split_scan_cons :
  forall (sep s : string) (skip : nat) (cur : string),
    exists p ps, split_scan sep skip cur s = p :: ps.
Proof.
  intros sep. induction s as [| c s IH]; intros skip cur; cbn [split_scan].
  - eauto.
  - destruct skip as [| n]; [ | apply IH ].
    destruct (HasPrefix (String c s) sep); [ eauto | apply IH ].
Qed.

(* ================================================================= *)
(** ** [strings.Split] on a slash *)

Section SplitSlash.

Let slash : string := "/".

Lemma split_scan_slash_step :
  forall (c : ascii) (cur s : string),
    split_scan slash 0 cur (String c s) =
      if Ascii.eqb c "/"
      then cur :: split_scan slash 0 EmptyString s
      else split_scan slash 0 (cur ++ String c EmptyString) s.
Proof.
  intros c cur s. cbn. rewrite Ascii.eqb_sym, andb_true_r. reflexivity.
Qed.

Lemma append_snoc :
  forall (a : string) (c : ascii) (b : string),
    (a ++ String c EmptyString) ++ b = a ++ String c b.
Proof.
  induction a as [| x a IH]; intros c b; cbn; [reflexivity | now rewrite IH].
Qed.

Lemma append_empty_r : forall a : string, a ++ EmptyString = a.
Proof.
  induction a as [| x a IH]; cbn; [reflexivity | now rewrite IH].
Qed.

Lemma split_scan_lacks :
  forall (s cur : string),
    lacks "/" s = true -> split_scan slash 0 cur s = [cur ++ s].
Proof.
  induction s as [| c s IH]; intros cur Hl.
  - cbn. now rewrite append_empty_r.
  - rewrite split_scan_slash_step. cbn in Hl.
    apply andb_true_iff in Hl. destruct Hl as [Hc Hs].
    apply negb_true_iff in Hc. rewrite Hc.
    rewrite IH by assumption. now rewrite append_snoc.
Qed.

Lemma split_scan_after_first :
  forall (s cur rest : string),
    after_first "/" s = Some rest ->
    exists p, split_scan slash 0 cur s = p :: split_scan slash 0 EmptyString rest.
Proof.
  induction s as [| c s IH]; intros cur rest Ha; cbn in Ha.
  - discriminate.
  - rewrite split_scan_slash_step.
    destruct (Ascii.eqb c "/").
    + injection Ha as <-. eauto.
    + apply IH. assumption.
Qed.

Lemma lacks_false_after_first :
  forall s : string, lacks "/" s = false -> exists rest, after_first "/" s = Some rest.
Proof.
  induction s as [| c s IH]; cbn; intros Hl.
  - discriminate.
  - destruct (Ascii.eqb c "/"); cbn in Hl; eauto.
Qed.

(** With a slash in it, [Split(s, "/")] has an element of index 1. *)
Lemma Split_slash_second_exists :
  forall s : string,
    lacks "/" s = false -> exists v, nth_error (Split s slash) 1 = Some v.
Proof.
  intros s Hl. destruct (lacks_false_after_first s Hl) as [rest Hr].
  destruct (split_scan_after_first s EmptyString rest Hr) as [p Hp].
  unfold Split. rewrite Hp.
  destruct (split_scan_cons slash rest 0 EmptyString) as [q [qs Hq]].
  rewrite Hq. cbn. eauto.
Qed.

(** With exactly one slash in it, the element of index 1 is what follows
    the slash. *)
Lemma Split_slash_second :
  forall s rest : string,
    after_first "/" s = Some rest ->
    lacks "/" rest = true ->
    nth_error (Split s slash) 1 = Some rest.
Proof.
  intros s rest Hr Hl.
  destruct (split_scan_after_first s EmptyString rest Hr) as [p Hp].
  unfold Split. rewrite Hp. rewrite split_scan_lacks by assumption.
  reflexivity.
Qed.

End SplitSlash.

(** A path that cannot be: an index that is in range and out of range, or
    an assumption about the trace that the path contradicts. *)
Ltac absurd_path :=
  match goal with
  | H : nth_error _ _ = _ |- _ => cbn in H; discriminate H
  | H : _ = _ |- _ => discriminate H
  | H : ?x <> ?x |- _ => now elim H
  end.

(** A property of the outcome and the trace of a run holds in every
    environment when it holds along every path of the program. *)
Ltac by_wp :=
  lazymatch goal with
  | |- context [run ?env ?p ?st] =>
      pattern (outcome_of (run env p st)), (trace_of (run env p st));
      apply wp_run
  end.

(* ================================================================= *)
(** ** Repeat access *)

(** C9. [passwordFromKeychain] indexes the first result without looking at
    the number of results: whenever the keychain answers its search with
    no error and no item, it panics with an index out of range, and so
    does the callback that reached it after Touch ID allowed the access. *)
Theorem passwordFromKeychain_panics_on_no_result :
  forall (env : Env) (st : St env) (label : string),
    (let r := run env (passwordFromKeychain label) st in
     query_answers (trace_of r) = [(read_query label, ([], None))] ->
     outcome_of r = Panicked (IndexOutOfRange 0 0)) /\
    (forall (s : Settings) (d : QueryResult),
       parse_label (Desc s) = Ret label ->
       let r := run env (GetPIN_callback s) st in
       query_answers (trace_of r) =
         [(check_query label, ([d], None)); (read_query label, ([], None))] ->
       outcome_of r = Panicked (IndexOutOfRange 0 0) /\
       auth_of (trace_of r) = [(true, None)]).
Proof.
  intros env st label. split.
  - intros r. subst r. by_wp.
    unfold passwordFromKeychain.
    remember (fun (o : Outcome (string * option error)) (tr : Trace) =>
                query_answers tr = [(read_query label, ([], None))] ->
                o = Panicked (IndexOutOfRange 0 0)) as Q eqn:HQ.
    repeat wp_step; wp_leaf Q; intros Hq; try absurd_path.
    reflexivity.
  - intros s d Hp r. subst r. by_wp.
    unfold GetPIN_callback, GetPIN. rewrite Hp.
    remember (fun (o : Outcome (string * option common_Error)) (tr : Trace) =>
                query_answers tr =
                  [(check_query label, ([d], None)); (read_query label, ([], None))] ->
                o = Panicked (IndexOutOfRange 0 0) /\ auth_of tr = [(true, None)])
      as Q eqn:HQ.
    repeat wp_step; wp_leaf Q; intros Hq; try absurd_path.
    split; reflexivity.
Qed.

Lemma passwordFromKeychain_panics_on_no_result_witness :
  outcome_of (run Script.env (passwordFromKeychain alice_label)
                {| Script.queries := []; Script.adds := []; Script.auths := [];
                   Script.start := None; Script.pins := [] |})
    = Panicked (IndexOutOfRange 0 0) /\
  outcome_of (run Script.env (GetPIN_callback alice) vanishing)
    = Panicked (IndexOutOfRange 0 0).
Proof.
  split.
  - apply (proj1 (passwordFromKeychain_panics_on_no_result Script.env _ alice_label)).
    reflexivity.
  - apply (proj2 (passwordFromKeychain_panics_on_no_result Script.env vanishing alice_label)
             alice (a_result [])).
    + reflexivity.
    + reflexivity.
Defined.

(** C1. When the label is already stored (the first existence check finds
    one item), no read of stored data happens before Touch ID has allowed
    the access in the same call, and a non-empty secret is returned only
    on the path check, allowed answer, read.  When Touch ID denies, the
    call returns the empty string with no error (the process goes on),
    reads nothing from the store and logs that authentication failed. *)
Theorem repeat_access_gated :
  forall (env : Env) (st : St env) (s : Settings) (label : string),
    parse_label (Desc s) = Ret label ->
    let r := run env (GetPIN_callback s) st in
    reads_gated (trace_of r) = true /\
    forall (d : QueryResult) (rest : list (Item * (list QueryResult * option error))),
      query_answers (trace_of r) = (check_query label, ([d], None)) :: rest ->
      (forall (p : string) (e : option common_Error),
         outcome_of r = Returned (p, e) ->
         p <> EmptyString ->
         auth_of (trace_of r) = [(true, None)] /\
         exists d', rest = [(read_query label, ([d'], None))] /\
                    p = string_of_bytes (qrData d')) /\
      (auth_of (trace_of r) = [(false, None)] ->
       outcome_of r = Returned (EmptyString, None) /\
       reads_of (trace_of r) = [] /\
       log_of (trace_of r) = [FileLine "Failed to authenticate" []]).
Proof.
  intros env st s label Hp r. subst r. by_wp.
  unfold GetPIN_callback, GetPIN. rewrite Hp.
  match goal with |- wp _ ?P => remember P as Q eqn:HQ end.
  repeat wp_step; wp_leaf Q.
  all: split; [ reflexivity | ].
  all: intros dfound rest Hq; try absurd_path.
  all: split; [ intros p e Ho Hne; try absurd_path | intros Ha; try absurd_path ].
  all: try (injection Ho as <- <-; try absurd_path).
  all: try (injection Hq as <- <-).
  all: eauto.
Qed.

Lemma repeat_access_gated_witness :
  auth_of (trace_of (run Script.env (GetPIN_callback alice) stored_1234)) = [(true, None)] /\
  outcome_of (run Script.env (GetPIN_callback alice) denied) = Returned (EmptyString, None) /\
  reads_of (trace_of (run Script.env (GetPIN_callback alice) denied)) = [].
Proof.
  split.
  - assert (Hp : parse_label (Desc alice) = Ret alice_label) by reflexivity.
    destruct (repeat_access_gated Script.env stored_1234 alice alice_label Hp) as [_ H].
    destruct (H (a_result []) [(read_query alice_label, ([a_result pin1234], None))]
                eq_refl) as [H1 _].
    apply (H1 "1234" None).
    + reflexivity.
    + discriminate.
  - assert (Hp : parse_label (Desc alice) = Ret alice_label) by reflexivity.
    destruct (repeat_access_gated Script.env denied alice alice_label Hp) as [_ H].
    destruct (H (a_result []) [] eq_refl) as [_ H2].
    destruct (H2 eq_refl) as [Ho [Hr _]].
    split; assumption.
Defined.

(** C8. When Touch ID has allowed the access and [passwordFromKeychain]
    then fails (the search returns an error, or more than one item), the
    error is written through the package-level logger and the call returns
    the empty string with no error; the process goes on. *)
Theorem read_failure_is_not_fatal :
  forall (env : Env) (st : St env) (s : Settings) (label : string),
    parse_label (Desc s) = Ret label ->
    let r := run env (GetPIN_callback s) st in
    forall (d : QueryResult) (a : list QueryResult * option error) (e : error),
      query_answers (trace_of r) = [(check_query label, ([d], None)); (read_query label, a)] ->
      read_failure a = Some e ->
      auth_of (trace_of r) = [(true, None)] /\
      outcome_of r = Returned (EmptyString, None) /\
      log_of (trace_of r) = [StdLine "Error fetching password from Keychain %s" [ArgError e]].
Proof.
  intros env st s label Hp r. subst r. by_wp.
  unfold GetPIN_callback, GetPIN. rewrite Hp.
  match goal with |- wp _ ?P => remember P as Q eqn:HQ end.
  repeat wp_step; wp_leaf Q.
  all: intros dfound aread eread Hq Hf; try absurd_path.
  all: injection Hq as <- <-; cbn in Hf; try absurd_path.
  all: injection Hf as <-; auto.
Qed.

Lemma read_failure_is_not_fatal_witness :
  outcome_of (run Script.env (GetPIN_callback alice) unreadable)
    = Returned (EmptyString, None) /\
  log_of (trace_of (run Script.env (GetPIN_callback alice) unreadable))
    = [StdLine "Error fetching password from Keychain %s" [ArgError read_error]].
Proof.
  assert (Hp : parse_label (Desc alice) = Ret alice_label) by reflexivity.
  destruct (read_failure_is_not_fatal Script.env unreadable alice alice_label Hp
              (a_result []) ([], Some read_error) read_error eq_refl eq_refl)
    as [_ [Ho Hl]].
  split; assumption.
Defined.

(* ================================================================= *)
(** ** First capture *)

(** Closes the paths on which the second element of the split key
    information is missing although the key information has a slash. *)
Ltac slash_path :=
  match goal with
  | Hl : lacks "/" ?k = false, Hn : nth_error (Split ?k "/") 1 = None |- _ =>
      destruct (Split_slash_second_exists k Hl) as [? Hsome];
      rewrite Hsome in Hn; discriminate Hn
  end.

(** C2. On first capture (the first existence check finds nothing and
    pinentry-mac hands back a non-empty pin) every [AddItem] comes after a
    second existence check of the same label made after the prompt; with a
    slash in the key information that second check is always made.  When
    it finds the entry, nothing is added and the call returns; when it
    finds nothing, exactly one item is added, and [ErrorDuplicateItem]
    from that [AddItem] ends the process with exit status 1. *)
Theorem first_capture_rechecks_before_writing :
  forall (env : Env) (st : St env) (s : Settings) (label : string),
    parse_label (Desc s) = Ret label ->
    let r := run env (GetPIN_callback s) st in
    forall (a1 : list QueryResult * option error)
           (rest : list (Item * (list QueryResult * option error)))
           (pin : bytes) (perr : option error),
      query_answers (trace_of r) = (check_query label, a1) :: rest ->
      says_absent a1 = true ->
      prompts_of (trace_of r) = [(pin, perr)] ->
      pin <> [] ->
      add_rechecked label false false (trace_of r) = true /\
      (lacks "/" (KeyInfo s) = false -> exists a2, rest = [(check_query label, a2)]) /\
      (forall a2,
         rest = [(check_query label, a2)] ->
         (says_found a2 = true ->
          add_answers (trace_of r) = [] /\
          outcome_of r = Returned (string_of_bytes pin, None)) /\
         (says_absent a2 = true ->
          exists (keyInfo : string) (aerr : option error),
            nth_error (Split (KeyInfo s) "/") 1 = Some keyInfo /\
            add_answers (trace_of r) = [(store_item label keyInfo pin, aerr)] /\
            (aerr = Some ErrorDuplicateItem ->
             outcome_of r = Exited 1 /\
             last (log_of (trace_of r)) (StdLine EmptyString []) =
               FileLine "Duplicated entry in the keychain" []))).
Proof.
  intros env st s label Hp r. subst r. by_wp.
  unfold GetPIN_callback, GetPIN. rewrite Hp.
  match goal with |- wp _ ?P => remember P as Q eqn:HQ end.
  repeat wp_step; wp_leaf Q.
  all: intros a1 rest pin0 perr Hq Ha1 Hpr Hpin; try absurd_path.
  all: injection Hq as <- <-; injection Hpr as <- <-; try absurd_path.
  all: rewrite ?String.eqb_refl; cbn.
  all: split; [ reflexivity | ].
  all: split; [ intros Hl; try slash_path; eauto | ].
  all: intros a2 Hr; try absurd_path.
  all: injection Hr as <-; cbn.
  all: split; [ intros Hf; try absurd_path; auto | intros Hab; try absurd_path ].
  all: eexists; eexists; split; [ eassumption | ].
  all: split; [ reflexivity | ].
  all: intros Herr; try absurd_path.
  all: try (injection Herr as ->).
  all: try (unfold is_ErrorDuplicateItem in Hdup; cbn in Hdup; discriminate Hdup).
  all: auto.
Qed.

Lemma first_capture_rechecks_before_writing_witness :
  let r := run Script.env (GetPIN_callback alice) duplicate in
  add_rechecked alice_label false false (trace_of r) = true /\
  outcome_of r = Exited 1.
Proof.
  intros r.
  assert (Hp : parse_label (Desc alice) = Ret alice_label) by reflexivity.
  assert (Hpin : pin1234 <> []) by discriminate.
  destruct (first_capture_rechecks_before_writing Script.env duplicate alice alice_label Hp
              ([], None) [(check_query alice_label, ([], None))] pin1234 None
              eq_refl eq_refl eq_refl Hpin) as [Hg [Hex Hcases]].
  split; [ exact Hg | ].
  destruct (Hex eq_refl) as [a2 Ha2].
  destruct (Hcases ([], None) eq_refl) as [_ Habsent].
  destruct (Habsent eq_refl) as [keyInfo [aerr [Hk [Hadd Hdup]]]].
  injection Hadd as _ <-.
  exact (proj1 (Hdup eq_refl)).
Defined.

(** C4. On first capture with a non-empty pin, whatever the call returns
    is the pin as entered, with no error, and the call makes no search
    that asks the keychain for stored data.  The call does return it both
    when the second check finds the entry (pinentry-mac saved it) and when
    it finds nothing and [AddItem] succeeds (the callback saved it). *)
Theorem first_capture_returns_entered_pin :
  forall (env : Env) (st : St env) (s : Settings) (label : string),
    parse_label (Desc s) = Ret label ->
    let r := run env (GetPIN_callback s) st in
    forall (a1 : list QueryResult * option error)
           (rest : list (Item * (list QueryResult * option error)))
           (pin : bytes) (perr : option error),
      query_answers (trace_of r) = (check_query label, a1) :: rest ->
      says_absent a1 = true ->
      prompts_of (trace_of r) = [(pin, perr)] ->
      pin <> [] ->
      reads_of (trace_of r) = [] /\
      (forall (v : string) (e : option common_Error),
         outcome_of r = Returned (v, e) -> v = string_of_bytes pin /\ e = None) /\
      (forall a2,
         rest = [(check_query label, a2)] ->
         (says_found a2 = true ->
          outcome_of r = Returned (string_of_bytes pin, None)) /\
         (says_absent a2 = true ->
          (exists i, add_answers (trace_of r) = [(i, None)]) ->
          outcome_of r = Returned (string_of_bytes pin, None))).
Proof.
  intros env st s label Hp r. subst r. by_wp.
  unfold GetPIN_callback, GetPIN. rewrite Hp.
  match goal with |- wp _ ?P => remember P as Q eqn:HQ end.
  repeat wp_step; wp_leaf Q.
  all: intros a1 rest pin0 perr Hq Ha1 Hpr Hpin; try absurd_path.
  all: injection Hq as <- <-; injection Hpr as <- <-; try absurd_path.
  all: split; [ reflexivity | ].
  all: split; [ intros v e Ho; try absurd_path; injection Ho as <- <-; auto | ].
  all: intros a2 Hr; try absurd_path.
  all: injection Hr as <-; cbn.
  all: split; [ intros Hf; try absurd_path; auto | intros Hab; try absurd_path ].
  all: intros [i Hadd]; try absurd_path; auto.
Qed.

Lemma first_capture_returns_entered_pin_witness :
  outcome_of (run Script.env (GetPIN_callback alice) saved_by_helper)
    = Returned ("1234", None) /\
  outcome_of (run World.env (GetPIN_callback alice) (World.fresh pin1234))
    = Returned ("1234", None).
Proof.
  assert (Hp : parse_label (Desc alice) = Ret alice_label) by reflexivity.
  assert (Hpin : pin1234 <> []) by discriminate.
  split.
  - destruct (first_capture_returns_entered_pin Script.env saved_by_helper alice alice_label Hp
                ([], None) [(check_query alice_label, ([a_result []], None))] pin1234 None
                eq_refl eq_refl eq_refl Hpin) as [_ [_ Hcases]].
    exact (proj1 (Hcases ([a_result []], None) eq_refl) eq_refl).
  - destruct (first_capture_returns_entered_pin World.env (World.fresh pin1234) alice
                alice_label Hp
                ([], None) [(check_query alice_label, ([], None))] pin1234 None
                eq_refl eq_refl eq_refl Hpin) as [_ [_ Hcases]].
    apply (proj2 (Hcases ([], None) eq_refl) eq_refl).
    exists (store_item alice_label "0123456789ABCDEF" pin1234). reflexivity.
Defined.

(** C6, as the code has it.  When nothing is stored under the label and
    pinentry-mac hands back no bytes (or cannot be started), the callback
    logs that no password was returned and ends the process with exit
    status 1: nothing is returned to the caller, the existence check is
    not repeated and nothing is added to the keychain. *)
Theorem empty_capture_is_fatal :
  forall (env : Env) (st : St env) (s : Settings) (label : string),
    parse_label (Desc s) = Ret label ->
    let r := run env (GetPIN_callback s) st in
    forall (a1 : list QueryResult * option error)
           (rest : list (Item * (list QueryResult * option error))),
      query_answers (trace_of r) = (check_query label, a1) :: rest ->
      says_absent a1 = true ->
      captured (trace_of r) = [] ->
      outcome_of r = Exited 1 /\
      last (log_of (trace_of r)) (StdLine EmptyString []) = no_password /\
      rest = [] /\
      add_answers (trace_of r) = [].
Proof.
  intros env st s label Hp r. subst r. by_wp.
  unfold GetPIN_callback, GetPIN. rewrite Hp.
  match goal with |- wp _ ?P => remember P as Q eqn:HQ end.
  repeat wp_step; wp_leaf Q.
  all: intros a1 rest Hq Ha1 Hc; try absurd_path.
  all: injection Hq as <- <-; try absurd_path.
  all: auto.
Qed.

Lemma empty_capture_is_fatal_witness :
  outcome_of (run World.env (GetPIN_callback alice) (World.fresh [])) = Exited 1.
Proof.
  assert (Hp : parse_label (Desc alice) = Ret alice_label) by reflexivity.
  exact (proj1 (empty_capture_is_fatal World.env (World.fresh []) alice alice_label Hp
                  ([], None) [] eq_refl eq_refl eq_refl)).
Defined.

(** C6 as claimed fails: the user cancels the prompt for a label that is
    not stored, and the call ends the process instead of returning an
    empty answer. *)
Lemma empty_capture_nonfatal_counterexample :
  let r := run World.env (GetPIN_callback alice) (World.fresh []) in
  prompts_of (trace_of r) = [([], None)] /\
  outcome_of r = Exited 1 /\
  ~ (exists v, outcome_of r = Returned v).
Proof.
  cbv zeta. split; [ reflexivity | ]. split; [ reflexivity | ].
  intros [v Hv]. vm_compute in Hv. discriminate Hv.
Qed.

Lemma split_scan_slash_head :
  forall (s cur : string),
    exists ps, split_scan "/" 0 cur s = (cur ++ before_first "/" s) :: ps.
Proof.
  induction s as [| c s IH]; intros cur.
  - cbn. rewrite append_empty_r. eauto.
  - rewrite split_scan_slash_step. cbn [before_first].
    destruct (Ascii.eqb c "/").
    + rewrite append_empty_r. eauto.
    + destruct (IH (cur ++ String c EmptyString)) as [ps Hps].
      rewrite Hps, append_snoc. eauto.
Qed.

(** The element of index 1 of [Split(s, "/")] is what stands between the
    first slash of [s] and the next one. *)
Lemma Split_slash_second_segment :
  forall s rest : string,
    after_first "/" s = Some rest ->
    nth_error (Split s "/") 1 = Some (before_first "/" rest).
Proof.
  intros s rest Hr.
  destruct (split_scan_after_first s EmptyString rest Hr) as [p Hp].
  destruct (split_scan_slash_head rest EmptyString) as [ps Hps].
  unfold Split. rewrite Hp, Hps. reflexivity.
Qed.

Lemma before_first_lacks :
  forall (c : ascii) (s : string), lacks c (before_first c s) = true.
Proof.
  intros c. induction s as [| x s IH]; cbn; [ reflexivity | ].
  destruct (Ascii.eqb x c) eqn:Hx; cbn; [ reflexivity | ].
  now rewrite Hx, IH.
Qed.

Lemma before_first_same :
  forall (c : ascii) (s : string), lacks c s = true -> before_first c s = s.
Proof.
  intros c. induction s as [| x s IH]; cbn; intros Hl; [ reflexivity | ].
  apply andb_true_iff in Hl. destruct Hl as [Hx Hs].
  apply negb_true_iff in Hx. rewrite Hx, IH by assumption. reflexivity.
Qed.

(** C7, as the code has it.  When the key information holds a slash, with
    [rest] after the first one, every item the callback hands to
    [AddItem] has as its account the part of [rest] before its first
    slash: the second segment of the key information.  That is [rest]
    itself when [rest] holds no slash, and it is not [rest] when [rest]
    holds one. *)
Theorem stored_account_is_second_segment :
  forall (env : Env) (st : St env) (s : Settings) (rest : string),
    after_first "/" (KeyInfo s) = Some rest ->
    let r := run env (GetPIN_callback s) st in
    (forall i : Item,
       In i (added_of (trace_of r)) -> itAccount i = Some (before_first "/" rest)) /\
    (lacks "/" rest = true ->
     forall i : Item, In i (added_of (trace_of r)) -> itAccount i = Some rest) /\
    (lacks "/" rest = false ->
     forall i : Item, In i (added_of (trace_of r)) -> itAccount i <> Some rest).
Proof.
  intros env st s rest Ha r. subst r.
  pose proof (Split_slash_second_segment (KeyInfo s) rest Ha) as Hsplit.
  assert (Hseg : forall i : Item,
             In i (added_of (trace_of (run env (GetPIN_callback s) st))) ->
             itAccount i = Some (before_first "/" rest)).
  { by_wp. unfold GetPIN_callback, GetPIN.
    destruct (parse_label_cases (Desc s)) as [[l Hp] | [[i [n Hp]] | [k Hp]]];
      rewrite Hp.
    - match goal with |- wp _ ?P => remember P as Q eqn:HQ end.
      repeat wp_step; wp_leaf Q.
      all: intros i Hin; try contradiction.
      all: destruct Hin as [<- | []]; cbn.
      all: rewrite Hsplit in Hidx; injection Hidx as <-; reflexivity.
    - cbn. intros i0 [].
    - cbn. intros [] i0 []. }
  split; [ exact Hseg | ]. split.
  - intros Hl i Hin. rewrite (Hseg i Hin), before_first_same by assumption.
    reflexivity.
  - intros Hl i Hin Hi. rewrite (Hseg i Hin) in Hi. injection Hi as Hi.
    pose proof (before_first_lacks "/" rest) as Hb.
    rewrite Hi, Hl in Hb. discriminate Hb.
Qed.

Lemma stored_account_is_second_segment_witness :
  let r1 := run World.env (GetPIN_callback alice) (World.fresh pin1234) in
  let r2 := run World.env (GetPIN_callback two_slashes) (World.fresh pin1234) in
  (added_of (trace_of r1) = [store_item alice_label "0123456789ABCDEF" pin1234] /\
   forall i : Item, In i (added_of (trace_of r1)) -> itAccount i = Some "0123456789ABCDEF") /\
  (added_of (trace_of r2) = [store_item alice_label "abc" pin1234] /\
   forall i : Item, In i (added_of (trace_of r2)) -> itAccount i = Some "abc").
Proof.
  intros r1 r2. split; (split; [ reflexivity | ]).
  - apply (proj1 (proj2 (stored_account_is_second_segment World.env (World.fresh pin1234)
                           alice "0123456789ABCDEF" eq_refl))).
    reflexivity.
  - exact (proj1 (stored_account_is_second_segment World.env (World.fresh pin1234)
                    two_slashes "abc/def" eq_refl)).
Defined.

(** C7 as claimed fails: with the key information [n/abc/def] the text
    after the first slash is [abc/def], and the item that the callback
    adds has the account [abc]. *)
Lemma account_after_first_slash_counterexample :
  let r := run World.env (GetPIN_callback two_slashes) (World.fresh pin1234) in
  after_first "/" (KeyInfo two_slashes) = Some "abc/def" /\
  added_of (trace_of r) = [store_item alice_label "abc" pin1234] /\
  ~ (forall i : Item, In i (added_of (trace_of r)) -> itAccount i = Some "abc/def").
Proof.
  cbv zeta. split; [ reflexivity | ]. split; [ reflexivity | ].
  intros H. specialize (H (store_item alice_label "abc" pin1234) (or_introl eq_refl)).
  vm_compute in H. discriminate H.
Qed.

(* ================================================================= *)
(** ** A create that fails *)

Arguments World.query : simpl never.

Arguments World.add : simpl never.

Lemma world_query_absent :
  forall (w : World.world) (q : Item) (l : string),
    World.query_fault w = None ->
    itLabel q = Some l ->
    existsb (World.has_label l) (World.store w) = false ->
    World.query q w = ([], None).
Proof.
  intros w q l Hf Hq Hs. unfold World.query. rewrite Hf, Hq. cbn.
  assert (Hnil : filter (World.has_label l) (World.store w) = []).
  { induction (World.store w) as [| r rs IH]; cbn in *; [reflexivity |].
    apply orb_false_iff in Hs. destruct Hs as [Hr Hrs]. rewrite Hr. auto. }
  rewrite Hnil. destruct (itMatchLimit q) as [[|]|]; reflexivity.
Qed.

Lemma world_add_fault :
  forall (w : World.world) (i : Item) (e : error),
    World.add_fault w = Some e -> World.add i w = (Some e, w).
Proof.
  intros w i e Hf. unfold World.add. rewrite Hf. reflexivity.
Qed.

Lemma world_failed_create :
  forall (w : World.world) (s : Settings) (label : string) (e : error),
    parse_label (Desc s) = Ret label ->
    World.query_fault w = None ->
    World.helper_start w = None ->
    World.typed w <> [] ->
    existsb (World.has_label label) (World.store w ++ World.helper_saves w)%list = false ->
    World.add_fault w = Some e ->
    is_ErrorDuplicateItem e = false ->
    lacks "/" (KeyInfo s) = false ->
    exists (tr : Trace) (w' : World.world),
      run World.env (GetPIN_callback s) w =
        (Returned (string_of_bytes (World.typed w), None), tr, w') /\
      prompts_of tr = [(World.typed w, World.helper_error w)] /\
      (exists i, add_answers tr = [(i, Some e)]) /\
      World.store w' = (World.store w ++ World.helper_saves w)%list /\
      same_setup w w'.
Proof.
  intros w s label e Hp Hqf Hst Hty Hab Haf Hdup Hl.
  destruct (Split_slash_second_exists (KeyInfo s) Hl) as [k Hk].
  assert (Hab0 : existsb (World.has_label label) (World.store w) = false).
  { rewrite existsb_app in Hab. apply orb_false_iff in Hab. tauto. }
  unfold GetPIN_callback, GetPIN. rewrite Hp. cbn.
  rewrite (world_query_absent w (check_query label) label Hqf eq_refl Hab0). cbn.
  rewrite Hst. cbn.
  destruct (World.typed w) as [| c cs] eqn:Htyped; [ now elim Hty | ].
  unfold index. rewrite Hk.
  destruct (World.helper_error w) as [pe |] eqn:Hpe; cbn.
  - rewrite (world_query_absent _ (check_query label) label) by (cbn; auto).
    cbn. rewrite (world_add_fault _ _ e) by (cbn; auto). cbn.
    rewrite Hdup. cbn.
    eexists. eexists. split; [ reflexivity | ].
    cbn. unfold same_setup. cbn. rewrite ?Htyped, ?Hpe. eauto 10.
  - rewrite (world_query_absent _ (check_query label) label) by (cbn; auto).
    cbn. rewrite (world_add_fault _ _ e) by (cbn; auto). cbn.
    rewrite Hdup. cbn.
    eexists. eexists. split; [ reflexivity | ].
    cbn. unfold same_setup. cbn. rewrite ?Htyped, ?Hpe. eauto 10.
Qed.

(** C10. On first capture, an error of [AddItem] other than
    [ErrorDuplicateItem] is dropped: the call returns the pin with no
    error, and the log holds nothing about the failed create.  In the
    reference store, where a failed create persists nothing, the label is
    still absent afterwards and the next call for the same description
    prompts for the pin again. *)
Theorem create_error_is_ignored :
  (forall (env : Env) (st : St env) (s : Settings) (label : string),
     parse_label (Desc s) = Ret label ->
     let r := run env (GetPIN_callback s) st in
     forall (a1 : list QueryResult * option error)
            (rest : list (Item * (list QueryResult * option error)))
            (pin : bytes) (perr : option error) (i : Item) (e : error),
       query_answers (trace_of r) = (check_query label, a1) :: rest ->
       says_absent a1 = true ->
       prompts_of (trace_of r) = [(pin, perr)] ->
       pin <> [] ->
       add_answers (trace_of r) = [(i, Some e)] ->
       is_ErrorDuplicateItem e = false ->
       outcome_of r = Returned (string_of_bytes pin, None) /\
       log_of (trace_of r) =
         match perr with
         | Some pe => [FileLine "Error calling pinentry-mac: %s" [ArgError pe]]
         | None => []
         end) /\
  (forall (w : World.world) (s : Settings) (label : string) (e : error),
     parse_label (Desc s) = Ret label ->
     World.query_fault w = None ->
     World.helper_start w = None ->
     World.typed w <> [] ->
     existsb (World.has_label label) (World.store w ++ World.helper_saves w)%list = false ->
     World.add_fault w = Some e ->
     is_ErrorDuplicateItem e = false ->
     lacks "/" (KeyInfo s) = false ->
     let r1 := run World.env (GetPIN_callback s) w in
     let r2 := run World.env (GetPIN_callback s) (state_of r1) in
     outcome_of r1 = Returned (string_of_bytes (World.typed w), None) /\
     existsb (World.has_label label) (World.store (state_of r1)) = false /\
     prompts_of (trace_of r2) = [(World.typed w, World.helper_error w)] /\
     outcome_of r2 = Returned (string_of_bytes (World.typed w), None)).
Proof.
  split.
  - intros env st s label Hp r. subst r. by_wp.
    unfold GetPIN_callback, GetPIN. rewrite Hp.
    match goal with |- wp _ ?P => remember P as Q eqn:HQ end.
    repeat wp_step; wp_leaf Q.
    all: intros a1 rest pin0 perr i0 e0 Hq Ha1 Hpr Hpin Hadd He; try absurd_path.
    all: injection Hpr as <- <-; injection Hadd as _ <-; try absurd_path.
    all: try (rewrite He in Hdup; discriminate Hdup).
    all: auto.
  - intros w s label e Hp Hqf Hst Hty Hab Haf Hdup Hl r1 r2. subst r1 r2.
    destruct (world_failed_create w s label e Hp Hqf Hst Hty Hab Haf Hdup Hl)
      as [tr1 [w1 [Hrun1 [_ [_ [Hstore1 Hsame]]]]]].
    destruct Hsame as [Ht [Hhs [Hs1 [He1 [Hq1 Ha1]]]]].
    rewrite Hrun1. cbn [state_of outcome_of snd fst].
    assert (Hab1 : existsb (World.has_label label)
                     (World.store w1 ++ World.helper_saves w1)%list = false).
    { rewrite Hstore1, Hhs, existsb_app, Hab.
      rewrite existsb_app in Hab. apply orb_false_iff in Hab. destruct Hab as [_ Hh].
      rewrite Hh. reflexivity. }
    destruct (world_failed_create w1 s label e Hp) as [tr2 [w2 [Hrun2 [Hpr2 _]]]];
      try congruence.
    rewrite Hrun2. cbn [trace_of outcome_of snd fst].
    rewrite Hstore1. rewrite <- Ht, <- He1.
    repeat split; try assumption; reflexivity.
Qed.

Lemma create_error_is_ignored_witness :
  let r1 := run World.env (GetPIN_callback alice) (failing_store pin1234) in
  let r2 := run World.env (GetPIN_callback alice) (state_of r1) in
  (outcome_of r1 = Returned ("1234", None) /\ log_of (trace_of r1) = []) /\
  (World.store (state_of r1) = [] /\ prompts_of (trace_of r2) = [(pin1234, None)]).
Proof.
  intros r1 r2.
  assert (Hp : parse_label (Desc alice) = Ret alice_label) by reflexivity.
  assert (Hpin : pin1234 <> []) by discriminate.
  split.
  - apply (proj1 create_error_is_ignored World.env (failing_store pin1234) alice
             alice_label Hp ([], None) [(check_query alice_label, ([], None))]
             pin1234 None (store_item alice_label "0123456789ABCDEF" pin1234)
             not_allowed eq_refl eq_refl eq_refl Hpin eq_refl eq_refl).
  - split; [ reflexivity | ].
    exact (proj1 (proj2 (proj2
             (proj2 create_error_is_ignored (failing_store pin1234) alice alice_label
                not_allowed Hp eq_refl eq_refl Hpin eq_refl eq_refl eq_refl eq_refl)))).
Defined.

(* ================================================================= *)
(** ** The log does not depend on the secrets *)

Lemma log_of_public_calls :
  forall tr : Trace,
    log_of tr =
      flat_map (fun c => match c with PLog l => [l] | _ => [] end) (public_calls tr).
Proof.
  induction tr as [| [X e x] tr IH]; cbn; [ reflexivity | ].
  unfold log_of in IH. rewrite IH. destruct e; reflexivity.
Qed.

Lemma lowsim_alike :
  forall (p1 p2 : Prog (string * option common_Error)),
    lowsim p1 p2 ->
    forall (env1 env2 : Env) (R : St env1 -> St env2 -> Prop),
      alike env1 env2 R ->
      forall (st1 : St env1) (st2 : St env2),
        R st1 st2 ->
        public_calls (trace_of (run env1 p1 st1)) =
          public_calls (trace_of (run env2 p2 st2)) /\
        public_outcome (outcome_of (run env1 p1 st1)) =
          public_outcome (outcome_of (run env2 p2 st2)).
Proof.
  induction p1 as [a | c | m | X1 e1 k1 IH];
    intros p2 Hsim env1 env2 R Hal st1 st2 HR;
    destruct p2 as [b | c' | m' | X2 e2 k2]; cbn in Hsim; try contradiction.
  - destruct a, b. cbn in *. subst. auto.
  - subst. auto.
  - subst. auto.
  - destruct Hsim as [Hcall Hk].
    destruct (Hal _ _ e1 e2 st1 st2 Hcall HR) as [Hans HR'].
    cbn. destruct (handle env1 e1 st1) as [x1 st1a].
    destruct (handle env2 e2 st2) as [x2 st2a]. cbn in Hans, HR'.
    destruct (IH x1 (k2 x2) (Hk x1 x2 Hans) env1 env2 R Hal st1a st2a HR') as [Hc Ho].
    destruct (run env1 (k1 x1) st1a) as [[o1 tr1] st1b].
    destruct (run env2 (k2 x2) st2a) as [[o2 tr2] st2b].
    cbn in *. split; [ now rewrite Hcall, Hc | exact Ho ].
Qed.

(** The equal parts of two answers that agree up to the secret bytes. *)
Ltac tidy_public :=
  repeat match goal with
         | H : AQuery _ _ = AQuery _ _ |- _ => injection H as ? ?
         | H : AAdd _ = AAdd _ |- _ => injection H as ?
         | H : AAuth _ _ = AAuth _ _ |- _ => injection H as ? ?
         | H : ANew _ = ANew _ |- _ => injection H as ?
         | H : ABinary _ = ABinary _ |- _ => injection H as ?
         | H : ASet _ = ASet _ |- _ => injection H as ?
         | H : AGetPin _ _ = AGetPin _ _ |- _ => injection H as ? ?
         | H : ADone = ADone |- _ => clear H
         end;
  subst.

(** Case analysis on a value that the program [p] tests. *)
Ltac case_on_tested p :=
  match p with
  | context [List.length ?l] => is_var l; split_answer l
  | context [if_err ?v _] => is_var v; split_answer v
  | context [negb ?v] => is_var v; split_answer v
  | context [match ?v with _ => _ end] => is_var v; split_answer v
  | context [index ?l ?i] =>
      let H := fresh "Hidx" in
      pose proof (index_cases _ l i) as H;
      destruct (index l i);
      [ cbn in H; try discriminate H; try (injection H as ->)
      | contradiction
      | destruct H as [H ->]; cbn in H; try discriminate H
      | contradiction ]
  | context [is_ErrorDuplicateItem ?e] =>
      let H := fresh "Hdup" in destruct (is_ErrorDuplicateItem e) eqn:H
  end.

(** One step of two runs of the same code side by side. *)
Ltac ls_step :=
  cbn in *;
  first
    [ absurd_path
    | lazymatch goal with
      | |- _ /\ _ => split; [ reflexivity | ]
      end
    | lazymatch goal with
      | |- forall x1 x2, _ -> _ =>
          let x1 := fresh "x" in
          let x2 := fresh "y" in
          let H := fresh "Hpub" in
          intros x1 x2 H;
          lazymatch type of x1 with
          | (_ * _)%type => destruct x1, x2
          | unit => destruct x1, x2
          | _ => idtac
          end;
          cbn in H; tidy_public
      end
    | match goal with
      | |- ?G => case_on_tested G
      end
    | reflexivity ].

Lemma GetPIN_lowsim :
  forall s : Settings, lowsim (GetPIN_callback s) (GetPIN_callback s).
Proof.
  intros s. unfold GetPIN_callback, GetPIN.
  destruct (parse_label_cases (Desc s)) as [[l Hp] | [[i [n Hp]] | [k Hp]]];
    rewrite Hp.
  - repeat ls_step.
  - repeat ls_step.
  - repeat ls_step.
Qed.

(* ================================================================= *)
(** ** The description patterns *)

Section Matching.

Variable R : Type.

Lemma append_assoc :
  forall a b c : string, (a ++ b) ++ c = a ++ (b ++ c).
Proof.
  induction a as [| x a IH]; intros b c; cbn; [ reflexivity | now rewrite IH ].
Qed.

Lemma dotstar_some :
  forall (s : string) (k : string -> option R),
    dotstar s k <> None <->
    exists m s', s = m ++ s' /\ lacks newline m = true /\ k s' <> None.
Proof.
  induction s as [| c s IH]; intros k; cbn.
  - split.
    + intros H. exists EmptyString, EmptyString. auto.
    + intros [m [s' [Hs [_ Hk]]]].
      destruct m; cbn in Hs; [ now subst s' | discriminate Hs ].
  - destruct (Ascii.eqb c newline) eqn:Hc.
    + split.
      * intros H. exists EmptyString, (String c s). auto.
      * intros [m [s' [Hs [Hm Hk]]]].
        destruct m as [| x m]; cbn in Hs; [ now subst s' | ].
        injection Hs as <- _. cbn in Hm. rewrite Hc in Hm. discriminate Hm.
    + destruct (dotstar s k) eqn:Hd.
      * split; [ intros _ | discriminate ].
        assert (Hne : dotstar s k <> None) by (rewrite Hd; discriminate).
        apply IH in Hne. destruct Hne as [m [s' [Hs [Hm Hk]]]].
        exists (String c m), s'. cbn. rewrite Hc, Hm, Hs. auto.
      * split.
        -- intros H. exists EmptyString, (String c s). auto.
        -- intros [m [s' [Hs [Hm Hk]]]].
           destruct m as [| x m]; cbn in Hs; [ now subst s' | ].
           injection Hs as <- Hs. cbn in Hm. rewrite Hc in Hm. cbn in Hm.
           exfalso. assert (Hnone : ~ dotstar s k <> None) by (rewrite Hd; auto).
           apply Hnone. apply IH. eauto.
Qed.

Lemma rmatch_some :
  forall (r : regex) (s : string) (c : caps) (k : string -> caps -> option R),
    blind k ->
    (rmatch r s c k <> None <->
     exists m s', s = m ++ s' /\ lang r m /\ k s' c <> None).
Proof.
  induction r as [a | | r1 IH1 r2 IH2 | n r1 IH1]; intros s c k Hb; cbn.
  - destruct s as [| b s].
    + split; [ congruence | ].
      intros [m [s' [Hs [Hm _]]]]. subst m. discriminate Hs.
    + destruct (Ascii.eqb a b) eqn:Hab.
      * apply Ascii.eqb_eq in Hab. subst b. split.
        -- intros H. exists (String a EmptyString), s. auto.
        -- intros [m [s' [Hs [Hm Hk]]]]. subst m. injection Hs as <-. assumption.
      * split; [ congruence | ].
        intros [m [s' [Hs [Hm _]]]]. subst m. injection Hs as <- _.
        rewrite Ascii.eqb_refl in Hab. discriminate Hab.
  - apply dotstar_some.
  - assert (Hb2 : blind (fun s' c' => rmatch r2 s' c' k)).
    { intros s0 c0 c0' H. apply (IH2 s0 c0 k Hb) in H.
      destruct H as [m [s' [Hs [Hm Hk]]]].
      apply (IH2 s0 c0' k Hb). exists m, s'. eauto. }
    rewrite (IH1 s c _ Hb2). split.
    + intros [m1 [s1 [Hs [Hm1 H2]]]].
      apply (IH2 s1 c k Hb) in H2. destruct H2 as [m2 [s2 [Hs2 [Hm2 Hk]]]].
      exists (m1 ++ m2), s2. subst. rewrite append_assoc. eauto 10.
    + intros [m [s' [Hs [[m1 [m2 [Hm [Hm1 Hm2]]]] Hk]]]].
      exists m1, (m2 ++ s'). subst. rewrite append_assoc.
      split; [ reflexivity | ]. split; [ assumption | ].
      apply (IH2 _ c k Hb). eauto.
  - assert (Hb1 : blind (fun s' c' => k s' (set_cap n (consumed s s') c'))).
    { intros s0 c0 c0' H. eapply Hb. eassumption. }
    rewrite (IH1 s c _ Hb1). split.
    + intros [m [s' [Hs [Hm Hk]]]]. exists m, s'. eauto.
    + intros [m [s' [Hs [Hm Hk]]]]. exists m, s'. eauto.
Qed.

(** [rmatch] returns only what its continuation returns. *)
Lemma dotstar_result :
  forall (s : string) (k : string -> option R) (v : R),
    dotstar s k = Some v -> exists s', k s' = Some v.
Proof.
  induction s as [| c s IH]; intros k v; cbn; [ eauto | ].
  destruct (Ascii.eqb c newline); [ eauto | ].
  destruct (dotstar s k) eqn:Hd; [ | eauto ].
  intros H. injection H as <-. eauto.
Qed.

Lemma rmatch_result :
  forall (r : regex) (s : string) (c : caps) (k : string -> caps -> option R) (v : R),
    rmatch r s c k = Some v -> exists s' c', k s' c' = Some v.
Proof.
  induction r as [a | | r1 IH1 r2 IH2 | n r1 IH1]; intros s c k v; cbn.
  - destruct s as [| b s]; [ discriminate | ].
    destruct (Ascii.eqb a b); [ eauto | discriminate ].
  - intros H. apply dotstar_result in H. destruct H as [s' H]. eauto.
  - intros H. apply IH1 in H. destruct H as [s1 [c1 H]]. apply IH2 in H. exact H.
  - intros H. apply IH1 in H. destruct H as [s1 [c1 H]]. eauto.
Qed.

End Matching.

Lemma match_here_some :
  forall (n : nat) (r : regex) (s : string),
    match_here n r s <> None <-> exists m s', s = m ++ s' /\ lang r m.
Proof.
  intros n r s. unfold match_here. rewrite rmatch_some.
  - split.
    + intros [m [s' [Hs [Hm _]]]]. eauto.
    + intros [m [s' [Hs Hm]]]. exists m, s'. repeat split; auto. discriminate.
  - intros s0 c c' _. discriminate.
Qed.

(** [find_submatch] finds a match exactly when some part of the input is
    in the language of the pattern. *)
Lemma find_submatch_some :
  forall (n : nat) (r : regex) (s : string),
    find_submatch n r s <> None <-> exists a m b, s = a ++ m ++ b /\ lang r m.
Proof.
  intros n r. induction s as [| c s IH].
  - cbn [find_submatch]. destruct (match_here n r EmptyString) eqn:Hm.
    + split; [ intros _ | discriminate ].
      assert (Hne : match_here n r EmptyString <> None) by (rewrite Hm; discriminate).
      apply match_here_some in Hne. destruct Hne as [m [s' [Hs Hl]]].
      exists EmptyString, m, s'. auto.
    + split; [ congruence | ].
      intros [a [m [b [Hs Hl]]]].
      destruct a; cbn in Hs; [ | discriminate Hs ].
      exfalso. assert (Hnone : ~ match_here n r EmptyString <> None) by (rewrite Hm; auto).
      apply Hnone. apply match_here_some. eauto.
  - cbn [find_submatch]. destruct (match_here n r (String c s)) eqn:Hm.
    + split; [ intros _ | discriminate ].
      assert (Hne : match_here n r (String c s) <> None) by (rewrite Hm; discriminate).
      apply match_here_some in Hne. destruct Hne as [m [s' [Hs Hl]]].
      exists EmptyString, m, s'. auto.
    + rewrite IH. split.
      * intros [a [m [b [Hs Hl]]]]. exists (String c a), m, b. cbn. now rewrite Hs.
      * intros [a [m [b [Hs Hl]]]].
        destruct a as [| x a]; cbn in Hs.
        -- exfalso.
           assert (Hnone : ~ match_here n r (String c s) <> None) by (rewrite Hm; auto).
           apply Hnone. apply match_here_some. eauto.
        -- injection Hs as _ Hs. eauto.
Qed.

(** A match comes with one submatch per group. *)
Lemma find_submatch_length :
  forall (n : nat) (r : regex) (s : string) (l : list string),
    find_submatch n r s = Some l -> List.length l = S n.
Proof.
  intros n r. induction s as [| c s IH]; intros l; cbn [find_submatch].
  - destruct (match_here n r EmptyString) eqn:Hm; [ | discriminate ].
    intros H. injection H as <-. unfold match_here in Hm.
    apply rmatch_result in Hm. destruct Hm as [s' [c' Hk]]. injection Hk as <-.
    cbn. now rewrite length_map, length_seq.
  - destruct (match_here n r (String c s)) eqn:Hm; [ | apply IH ].
    intros H. injection H as <-. unfold match_here in Hm.
    apply rmatch_result in Hm. destruct Hm as [s' [c' Hk]]. injection Hk as <-.
    cbn. now rewrite length_map, length_seq.
Qed.

Ltac open_lang :=
  repeat match goal with
         | H : exists _, _ |- _ => destruct H
         | H : _ /\ _ |- _ => destruct H
         end;
  subst.

Lemma lang_emailRegex :
  forall m : string,
    lang emailRegex m <->
    exists n e, m = quoted (n ++ "<" ++ e ++ ">") /\
                lacks newline n = true /\ lacks newline e = true.
Proof.
  intros m. split.
  - cbn. unfold quoted. intros H. open_lang.
    do 2 eexists. split; [ reflexivity | auto ].
  - intros [n [e [-> [Hn He]]]].
    exists (String dquote EmptyString), ((n ++ "<" ++ e ++ ">") ++ String dquote EmptyString).
    split; [ reflexivity | ]. split; [ reflexivity | ].
    exists (n ++ "<" ++ e ++ ">"), (String dquote EmptyString).
    split; [ reflexivity | ]. split; [ | reflexivity ].
    exists n, ("<" ++ e ++ ">").
    split; [ reflexivity | ]. split; [ assumption | ].
    exists "<", (e ++ ">").
    split; [ reflexivity | ]. split; [ reflexivity | ].
    exists e, ">". split; [ reflexivity | ]. split; [ assumption | reflexivity ].
Qed.

Lemma lang_keyIDRegex :
  forall m : string,
    lang keyIDRegex m <-> exists k, m = "ID " ++ k ++ "," /\ lacks newline k = true.
Proof.
  intros m. split.
  - cbn. intros H. open_lang.
    eexists. split; [ reflexivity | auto ].
  - intros [k [-> Hk]].
    exists "I", ("D " ++ k ++ ","). split; [ reflexivity | ]. split; [ reflexivity | ].
    exists "D", (" " ++ k ++ ","). split; [ reflexivity | ]. split; [ reflexivity | ].
    exists " ", (k ++ ","). split; [ reflexivity | ]. split; [ reflexivity | ].
    exists k, ",". split; [ reflexivity | ]. split; [ assumption | reflexivity ].
Qed.

Lemma emailRegex_found :
  forall desc : string,
    find_submatch emailRegex_groups emailRegex desc <> None <-> has_quoted_user desc.
Proof.
  intros desc. rewrite find_submatch_some. unfold has_quoted_user. split.
  - intros [a [m [b [Hs Hm]]]]. apply lang_emailRegex in Hm.
    destruct Hm as [n [e [-> [Hn He]]]]. exists a, n, e, b. auto.
  - intros [a [n [e [b [Hs [Hn He]]]]]].
    exists a, (quoted (n ++ "<" ++ e ++ ">")), b. split; [ assumption | ].
    apply lang_emailRegex. eauto.
Qed.

Lemma keyIDRegex_found :
  forall desc : string,
    find_submatch keyIDRegex_groups keyIDRegex desc <> None <-> has_key_id desc.
Proof.
  intros desc. rewrite find_submatch_some. unfold has_key_id. split.
  - intros [a [m [b [Hs Hm]]]]. apply lang_keyIDRegex in Hm.
    destruct Hm as [k [-> Hk]]. exists a, k, b. split; [ | assumption ].
    rewrite Hs. cbn. now rewrite append_assoc.
  - intros [a [k [b [Hs Hk]]]].
    exists a, ("ID " ++ k ++ ","), b. split.
    + rewrite Hs. cbn. now rewrite append_assoc.
    + apply lang_keyIDRegex. eauto.
Qed.

(** [parse_label] by what the two searches find. *)
Lemma parse_label_shape :
  forall desc : string,
    match find_submatch emailRegex_groups emailRegex desc,
          find_submatch keyIDRegex_groups keyIDRegex desc with
    | Some _, Some _ =>
        if bad_length (keyID_of desc)
        then parse_label desc = logger_Fatalf "Invalid keyID: %s" [ArgString (keyID_of desc)]
        else exists l, parse_label desc = Ret l
    | _, _ => parse_label desc = Panic (IndexOutOfRange 1 0)
    end.
Proof.
  intros desc. unfold parse_label, keyID_of, FindStringSubmatch.
  destruct (find_submatch emailRegex_groups emailRegex desc) as [m |] eqn:Hm;
    [ | reflexivity ].
  apply find_submatch_length in Hm.
  destruct m as [| w [| m1 [| m2 [| ]]]]; try discriminate Hm.
  destruct (split_scan_cons " <" m1 0 EmptyString) as [name [ps Hsplit]].
  unfold index, Split. cbn [nth_error bind]. rewrite Hsplit. cbn [nth_error bind].
  destruct (find_submatch keyIDRegex_groups keyIDRegex desc) as [k |] eqn:Hk;
    [ | reflexivity ].
  apply find_submatch_length in Hk.
  destruct k as [| w' [| keyID [| ]]]; try discriminate Hk.
  cbn [nth_error bind nth]. unfold bad_length.
  destruct (negb (Nat.eqb (String.length keyID) 8) && negb (Nat.eqb (String.length keyID) 16));
    cbn; eauto.
Qed.

Lemma bad_length_spec :
  forall k : string,
    bad_length k = true <-> String.length k <> 8 /\ String.length k <> 16.
Proof.
  intros k. unfold bad_length.
  rewrite andb_true_iff, !negb_true_iff, !Nat.eqb_neq. tauto.
Qed.

(** C3. [parse_label] fails exactly when the description has no quoted
    [name <email>], or no [ID keyId,], or the [keyId] it extracts is
    neither 8 nor 16 bytes long.  A missing pattern is an index out of
    range on the [nil] result of the search, a wrong length is
    [logger.Fatalf]; either way the callback ends the process before it
    calls the keychain.  Key identifiers of 7, 9, 15 and 17 bytes fail, of
    8 and 16 bytes pass. *)
Theorem parse_fails_iff :
  (forall desc : string,
     let wrong := String.length (keyID_of desc) <> 8 /\ String.length (keyID_of desc) <> 16 in
     ((forall l, parse_label desc <> Ret l) <->
      (~ has_quoted_user desc \/ ~ has_key_id desc \/ wrong)) /\
     (~ has_quoted_user desc \/ ~ has_key_id desc ->
      parse_label desc = Panic (IndexOutOfRange 1 0)) /\
     (has_quoted_user desc -> has_key_id desc -> wrong ->
      parse_label desc = logger_Fatalf "Invalid keyID: %s" [ArgString (keyID_of desc)]) /\
     (forall (env : Env) (st : St env) (s : Settings),
        Desc s = desc ->
        (forall l, parse_label desc <> Ret l) ->
        let r := run env (GetPIN_callback s) st in
        (outcome_of r = Panicked (IndexOutOfRange 1 0) \/ outcome_of r = Exited 1) /\
        query_answers (trace_of r) = [])) /\
  (forall k, In k [key7; key9; key15; key17] ->
     parse_label (description user_alice k) =
       logger_Fatalf "Invalid keyID: %s" [ArgString k]) /\
  (forall k, In k [key8; key16] ->
     parse_label (description user_alice k) =
       Ret (keychainLabel_of "Alice" "alice@example.com" k)).
Proof.
  split; [ | split ].
  - intros desc wrong. subst wrong.
    pose proof (parse_label_shape desc) as Hshape.
    pose proof (emailRegex_found desc) as Hemail.
    pose proof (keyIDRegex_found desc) as Hkey.
    pose proof (bad_length_spec (keyID_of desc)) as Hbad.
    assert (Hcases :
      (parse_label desc = Panic (IndexOutOfRange 1 0) /\
       (~ has_quoted_user desc \/ ~ has_key_id desc)) \/
      (parse_label desc = logger_Fatalf "Invalid keyID: %s" [ArgString (keyID_of desc)] /\
       has_quoted_user desc /\ has_key_id desc /\ bad_length (keyID_of desc) = true) \/
      ((exists l, parse_label desc = Ret l) /\
       has_quoted_user desc /\ has_key_id desc /\ bad_length (keyID_of desc) = false)).
    { destruct (find_submatch emailRegex_groups emailRegex desc) as [m |].
      - assert (He : has_quoted_user desc) by (apply Hemail; discriminate).
        destruct (find_submatch keyIDRegex_groups keyIDRegex desc) as [k |].
        + assert (Hk : has_key_id desc) by (apply Hkey; discriminate).
          destruct (bad_length (keyID_of desc)); auto 10.
        + left. split; [ assumption | ]. right. intros Hk. apply Hkey in Hk. auto.
      - left. split; [ assumption | ]. left. intros He. apply Hemail in He. auto. }
    clear Hshape Hemail Hkey.
    destruct Hcases as [[Hp Habs] | [[Hp [He [Hk Hb]]] | [[l Hp] [He [Hk Hb]]]]].
    + split; [ split; [ tauto | ] | ].
      { intros _ l Hl. rewrite Hp in Hl. discriminate Hl. }
      split; [ intros _; assumption | ]. split; [ tauto | ].
      intros env st s Hd _ r. subst desc r.
      unfold GetPIN_callback, GetPIN. rewrite Hp. cbn. auto.
    + split; [ split | ].
      { intros _. right. right. apply Hbad. assumption. }
      { intros _ l Hl. rewrite Hp in Hl. discriminate Hl. }
      split; [ tauto | ]. split; [ intros _ _ _; assumption | ].
      intros env st s Hd _ r. subst desc r.
      unfold GetPIN_callback, GetPIN. rewrite Hp. cbn.
      destruct (handle env (logger_Output "Invalid keyID: %s" [ArgString (keyID_of (Desc s))]) st)
        as [[] st1].
      cbn. auto.
    + assert (Hok : ~ (String.length (keyID_of desc) <> 8 /\
                       String.length (keyID_of desc) <> 16)).
      { intros Hw. apply Hbad in Hw. rewrite Hb in Hw. discriminate Hw. }
      split; [ split; [ intros Hfail; elim (Hfail l Hp) | tauto ] | ].
      split; [ tauto | ]. split; [ tauto | ].
      intros env st s Hd Hfail. elim (Hfail l Hp).
  - intros k Hin. cbn in Hin.
    destruct Hin as [<- | [<- | [<- | [<- | []]]]]; vm_compute; reflexivity.
  - intros k Hin. cbn in Hin.
    destruct Hin as [<- | [<- | []]]; vm_compute; reflexivity.
Qed.

Lemma parse_fails_iff_witness :
  parse_label desc7 = logger_Fatalf "Invalid keyID: %s" [ArgString key7] /\
  outcome_of (run World.env (GetPIN_callback {| Desc := desc7; KeyInfo := "n/0123" |})
                (World.fresh pin1234)) = Exited 1 /\
  parse_label EmptyString = Panic (IndexOutOfRange 1 0) /\
  parse_label (description user_alice key17) =
    logger_Fatalf "Invalid keyID: %s" [ArgString key17] /\
  parse_label (description user_alice key16) =
    Ret (keychainLabel_of "Alice" "alice@example.com" key16).
Proof.
  assert (Hfail : forall l, parse_label desc7 <> Ret l).
  { intros l. vm_compute. discriminate. }
  destruct (proj1 parse_fails_iff desc7) as [Hiff [Habsent [Hwrong Hfatal]]].
  split; [ | split; [ | split; [ | split ] ] ];
    [ | | | apply (proj1 (proj2 parse_fails_iff) key17); cbn; auto
          | apply (proj2 (proj2 parse_fails_iff) key16); cbn; auto ].
  - apply Hwrong.
    + exists ("Please enter the passphrase to unlock the OpenPGP secret key:" ++ nl),
        "Alice ", "alice@example.com",
        (nl ++ "2048-bit RSA key, ID " ++ key7 ++ "," ++ nl ++ "created 2020-01-01.").
      repeat split; reflexivity.
    + exists ("Please enter the passphrase to unlock the OpenPGP secret key:" ++ nl ++
              quoted user_alice ++ nl ++ "2048-bit RSA key, "),
        key7, (nl ++ "created 2020-01-01.").
      repeat split; reflexivity.
    + vm_compute. split; discriminate.
  - destruct (Hfatal World.env (World.fresh pin1234)
                {| Desc := desc7; KeyInfo := "n/0123" |} eq_refl Hfail) as [[Ho | Ho] _].
    + vm_compute in Ho. discriminate Ho.
    + exact Ho.
  - apply (proj1 (proj2 (proj1 parse_fails_iff EmptyString))).
    left. intros [a [n [e [b [Hs _]]]]].
    destruct a; cbn in Hs; discriminate Hs.
Defined.

(* ================================================================= *)
(** ** Errors of the collaborators *)

(** X1. An error of the existence check ends the process.  When the first
    check fails, the callback logs the error and exits with status 1
    without prompting or asking Touch ID; when the check after the prompt
    fails, it exits with status 1 and adds nothing, the pin just entered
    being dropped. *)
Theorem existence_check_error_is_fatal :
  forall (env : Env) (st : St env) (s : Settings) (label : string),
    parse_label (Desc s) = Ret label ->
    let r := run env (GetPIN_callback s) st in
    (forall (rs : list QueryResult) (e : error)
            (rest : list (Item * (list QueryResult * option error))),
       query_answers (trace_of r) = (check_query label, (rs, Some e)) :: rest ->
       outcome_of r = Exited 1 /\
       rest = [] /\
       log_of (trace_of r) = [check_failed e] /\
       prompts_of (trace_of r) = [] /\
       auth_of (trace_of r) = []) /\
    (forall (a1 : list QueryResult * option error) (rs : list QueryResult) (e : error)
            (rest : list (Item * (list QueryResult * option error))),
       query_answers (trace_of r) =
         (check_query label, a1) :: (check_query label, (rs, Some e)) :: rest ->
       outcome_of r = Exited 1 /\
       rest = [] /\
       add_answers (trace_of r) = [] /\
       last (log_of (trace_of r)) (StdLine EmptyString []) = check_failed e).
Proof.
  intros env st s label Hp r. subst r. by_wp.
  unfold GetPIN_callback, GetPIN. rewrite Hp.
  match goal with |- wp _ ?P => remember P as Q eqn:HQ end.
  repeat wp_step; wp_leaf Q.
  all: split; [ intros rs0 e0 rest Hq | intros a1 rs0 e0 rest Hq ]; try absurd_path.
  all: try (injection Hq as _ <- <-; auto).
  all: try (injection Hq as _ _ <- <-; auto).
Qed.

(** [wp_run] for a property of the trace alone. *)
Lemma wp_run_trace :
  forall (A : Type) (p : Prog A) (P : Trace -> Prop),
    wp p (fun _ tr => P tr) ->
    forall (env : Env) (st : St env), P (trace_of (run env p st)).
Proof.
  intros A p P Hwp env st. exact (wp_run A p (fun _ tr => P tr) Hwp env st).
Qed.

Ltac by_wp_trace :=
  lazymatch goal with
  | |- context [run ?env ?p ?st] =>
      pattern (trace_of (run env p st));
      apply wp_run_trace
  end.

(** X2. An error of Touch ID ends the process whatever the boolean that
    came with it: the callback logs the error, exits with status 1 and
    never asks the keychain for the stored data. *)
Theorem touch_id_error_is_fatal :
  forall (env : Env) (st : St env) (s : Settings),
    let r := run env (GetPIN_callback s) st in
    forall (ok : bool) (e : error),
      auth_of (trace_of r) = [(ok, Some e)] ->
      outcome_of r = Exited 1 /\
      reads_of (trace_of r) = [] /\
      log_of (trace_of r) =
        [FileLine "Error authenticating with Touch ID: %s" [ArgError e]].
Proof.
  intros env st s r. subst r. by_wp.
  unfold GetPIN_callback, GetPIN.
  destruct (parse_label_cases (Desc s)) as [[l Hp] | [[i [n Hp]] | [k Hp]]];
    rewrite Hp.
  - match goal with |- wp _ ?P => remember P as Q eqn:HQ end.
    repeat wp_step; wp_leaf Q.
    all: intros ok0 e0 Ha; try absurd_path.
    all: injection Ha as _ <-; auto.
  - cbn. intros ok e Ha. discriminate Ha.
  - cbn. intros [] ok e Ha. discriminate Ha.
Qed.

(** X3. Repeat access returns what is stored.  When the existence check
    and the read each find one item, Touch ID was asked once and allowed
    the access, and the call returns the data of the item read, with no
    error, no log line, no prompt and no [AddItem]. *)
Theorem release_returns_stored_data :
  forall (env : Env) (st : St env) (s : Settings) (label : string),
    parse_label (Desc s) = Ret label ->
    let r := run env (GetPIN_callback s) st in
    forall d d' : QueryResult,
      query_answers (trace_of r) =
        [(check_query label, ([d], None)); (read_query label, ([d'], None))] ->
      auth_of (trace_of r) = [(true, None)] /\
      outcome_of r = Returned (string_of_bytes (qrData d'), None) /\
      log_of (trace_of r) = [] /\
      prompts_of (trace_of r) = [] /\
      added_of (trace_of r) = [].
Proof.
  intros env st s label Hp r. subst r. by_wp.
  unfold GetPIN_callback, GetPIN. rewrite Hp.
  match goal with |- wp _ ?P => remember P as Q eqn:HQ end.
  repeat wp_step; wp_leaf Q.
  all: intros dc dr Hq; try absurd_path.
  all: injection Hq as _ <-; auto.
Qed.

(** X4. A call takes one branch and makes each kind of call at most once:
    at most two keychain searches, one prompt, one Touch ID challenge, one
    read and one [AddItem].  A call that prompts never asks Touch ID and
    never reads stored data; a call that asks Touch ID adds nothing. *)
Theorem one_branch_per_call :
  forall (env : Env) (st : St env) (s : Settings),
    let tr := trace_of (run env (GetPIN_callback s) st) in
    (List.length (query_answers tr) <= 2 /\
     List.length (prompts_of tr) <= 1 /\
     List.length (auth_of tr) <= 1 /\
     List.length (reads_of tr) <= 1 /\
     List.length (added_of tr) <= 1) /\
    (prompts_of tr = [] \/ (auth_of tr = [] /\ reads_of tr = [])) /\
    (auth_of tr = [] \/ added_of tr = []).
Proof.
  intros env st s tr. subst tr.
  by_wp_trace.
  unfold GetPIN_callback, GetPIN.
  destruct (parse_label_cases (Desc s)) as [[l Hp] | [[i [n Hp]] | [k Hp]]];
    rewrite Hp.
  - match goal with |- wp _ ?P => remember P as Q eqn:HQ end.
    repeat wp_step; wp_leaf Q.
    all: repeat split; auto.
  - cbn. repeat split; auto.
  - cbn. intros []. repeat split; auto.
Qed.

(** X5. Every keychain call of a run is about the label of the request.
    Each search is a generic-password search for that label limited to
    one match; each item added is a generic password of service [GnuPG]
    under that label, not synchronised, readable only while the device is
    unlocked, and its data is the non-empty pin that pinentry-mac handed
    back in the same call. *)
Theorem keychain_calls_address_the_label :
  forall (env : Env) (st : St env) (s : Settings) (label : string),
    parse_label (Desc s) = Ret label ->
    let tr := trace_of (run env (GetPIN_callback s) st) in
    (forall (q : Item) (a : list QueryResult * option error),
       In (q, a) (query_answers tr) ->
       itLabel q = Some label /\
       itSecClass q = Some SecClassGenericPassword /\
       itMatchLimit q = Some MatchLimitOne) /\
    (forall i : Item,
       In i (added_of tr) ->
       itLabel i = Some label /\
       itSecClass i = Some SecClassGenericPassword /\
       itService i = Some "GnuPG" /\
       itSynchronizable i = Some SynchronizableNo /\
       itAccessible i = Some AccessibleWhenUnlocked /\
       exists (pin : bytes) (perr : option error),
         prompts_of tr = [(pin, perr)] /\ pin <> [] /\ itData i = Some pin).
Proof.
  intros env st s label Hp tr. subst tr.
  by_wp_trace.
  unfold GetPIN_callback, GetPIN. rewrite Hp.
  match goal with |- wp _ ?P => remember P as Q eqn:HQ end.
  repeat wp_step; wp_leaf Q.
  all: split; [ intros qq aa Hin | intros it Hin ].
  all: repeat match goal with
              | H : _ \/ _ |- _ => destruct H
              | H : False |- _ => contradiction
              | H : (_, _) = (_, _) |- _ => injection H as <- <-
              end.
  all: subst; cbn; repeat split; auto.
  all: do 2 eexists; repeat split; try reflexivity; discriminate.
Qed.

(* ================================================================= *)
(** ** The prompt helper *)

Section SplitChar.

Variable c : ascii.

Let sep : string := String c EmptyString.

Lemma split_scan_char_step :
  forall (x : ascii) (cur s : string),
    split_scan sep 0 cur (String x s) =
      if Ascii.eqb x c
      then cur :: split_scan sep 0 EmptyString s
      else split_scan sep 0 (cur ++ String x EmptyString) s.
Proof.
  intros x cur s. cbn. rewrite Ascii.eqb_sym, andb_true_r. reflexivity.
Qed.

Lemma lacks_append :
  forall a b : string, lacks c (a ++ b) = lacks c a && lacks c b.
Proof.
  induction a as [| x a IH]; intros b; cbn; [ reflexivity | ].
  rewrite IH. now rewrite andb_assoc.
Qed.

Lemma Join_cons :
  forall (x : string) (l : list string) (new : string),
    l <> [] -> Join (x :: l) new = x ++ new ++ Join l new.
Proof.
  intros x l new Hl. destruct l; [ now elim Hl | reflexivity ].
Qed.

Lemma split_scan_not_nil :
  forall (s cur : string), split_scan sep 0 cur s <> [].
Proof.
  intros s cur H. destruct (split_scan_cons sep s 0 cur) as [p [ps Hp]].
  rewrite Hp in H. discriminate H.
Qed.

(** Replacing every [c] by a text without [c] leaves no [c]. *)
Lemma Join_split_lacks :
  forall (new s cur : string),
    lacks c new = true ->
    lacks c cur = true ->
    lacks c (Join (split_scan sep 0 cur s) new) = true.
Proof.
  intros new. induction s as [| x s IH]; intros cur Hnew Hcur.
  - exact Hcur.
  - rewrite split_scan_char_step. destruct (Ascii.eqb x c) eqn:Hx.
    + rewrite Join_cons by apply split_scan_not_nil.
      rewrite !lacks_append, Hcur, Hnew. cbn. apply IH; auto.
    + apply IH; [ assumption | ].
      rewrite lacks_append, Hcur. cbn. now rewrite Hx.
Qed.

(** Without a [c] in it, the text is left as it is. *)
Lemma Join_split_same :
  forall (new s cur : string),
    lacks c s = true -> Join (split_scan sep 0 cur s) new = cur ++ s.
Proof.
  intros new. induction s as [| x s IH]; intros cur Hs.
  - cbn. now rewrite append_empty_r.
  - rewrite split_scan_char_step. cbn in Hs.
    apply andb_true_iff in Hs. destruct Hs as [Hx Hs].
    apply negb_true_iff in Hx. rewrite Hx.
    rewrite IH by assumption. now rewrite append_snoc.
Qed.

End SplitChar.

(** [ReplaceAll] of line 135, byte by byte. *)
Lemma Join_split_escape :
  forall (s cur : string),
    Join (split_scan nl 0 cur s) "\n" = cur ++ escape_newlines s.
Proof.
  induction s as [| x s IH]; intros cur.
  - cbn. now rewrite append_empty_r.
  - unfold nl. rewrite (split_scan_char_step newline). fold nl.
    cbn [escape_newlines]. destruct (Ascii.eqb x newline).
    + rewrite Join_cons by apply split_scan_not_nil. rewrite IH. reflexivity.
    + rewrite IH, append_snoc. reflexivity.
Qed.

Lemma ReplaceAll_newlines :
  forall s : string, ReplaceAll s nl "\n" = escape_newlines s.
Proof.
  intros s. unfold ReplaceAll, Split. now rewrite Join_split_escape.
Qed.

(** X6. The description that [askForPassword] hands to pinentry-mac is the
    description of the request with every newline byte replaced by a
    backslash and the letter n, and every other byte kept: it holds no
    newline byte, and it is the description itself when that holds none.
    The key information is handed over unchanged.  Once pinentry-mac has
    started, the values set are the title, this description, the prompt
    and the key information, in this order. *)
Theorem prompt_description_is_escaped :
  forall (env : Env) (st : St env) (s : Settings),
    let tr := trace_of (run env (askForPassword s) st) in
    (forall v : string,
       In ("desc", v) (sets_of tr) ->
       v = escape_newlines (Desc s) /\
       lacks newline v = true /\
       (lacks newline (Desc s) = true -> v = Desc s)) /\
    (forall v : string, In ("KEYINFO", v) (sets_of tr) -> v = KeyInfo s) /\
    (starts_of tr = [None] ->
     sets_of tr =
       [ ("title", "pinentry-mac-touchid PIN Prompt");
         ("desc", escape_newlines (Desc s));
         ("prompt", "Please enter your PIN:");
         ("KEYINFO", KeyInfo s) ]).
Proof.
  intros env st s tr. subst tr. by_wp_trace.
  unfold askForPassword. rewrite ReplaceAll_newlines.
  assert (Hesc : lacks newline (escape_newlines (Desc s)) = true).
  { rewrite <- ReplaceAll_newlines. unfold ReplaceAll, Split, nl.
    apply Join_split_lacks; reflexivity. }
  assert (Hsame : lacks newline (Desc s) = true -> escape_newlines (Desc s) = Desc s).
  { intros Hl. rewrite <- ReplaceAll_newlines. unfold ReplaceAll, Split, nl.
    now rewrite Join_split_same. }
  match goal with |- wp _ ?P => remember P as Q eqn:HQ end.
  repeat wp_step; wp_leaf Q.
  all: split; [ intros v Hin | split; [ intros v Hin | intros Hst ] ].
  all: repeat match goal with
              | H : _ \/ _ |- _ => destruct H
              | H : False |- _ => contradiction
              | H : (_, _) = (_, _) |- _ => injection H as ?
              end.
  all: try discriminate.
  all: subst; auto.
Qed.

(** X7. pinentry-mac is closed whenever it was started.  In every run of
    the callback the helper is started at most once; when it starts it is
    asked for the pin once and closed once, whatever it answers; when it
    does not start it is neither asked nor closed, and the call ends the
    process. *)
Theorem helper_is_closed_when_started :
  forall (env : Env) (st : St env) (s : Settings),
    let r := run env (GetPIN_callback s) st in
    (starts_of (trace_of r) = [] /\
     prompts_of (trace_of r) = [] /\ closes_of (trace_of r) = []) \/
    (starts_of (trace_of r) = [None] /\
     List.length (prompts_of (trace_of r)) = 1 /\ closes_of (trace_of r) = [tt]) \/
    (exists e, starts_of (trace_of r) = [Some e] /\
               prompts_of (trace_of r) = [] /\ closes_of (trace_of r) = [] /\
               outcome_of r = Exited 1).
Proof.
  intros env st s r. subst r. by_wp.
  unfold GetPIN_callback, GetPIN.
  destruct (parse_label_cases (Desc s)) as [[l Hp] | [[i [n Hp]] | [k Hp]]];
    rewrite Hp.
  - match goal with |- wp _ ?P => remember P as Q eqn:HQ end.
    repeat wp_step; wp_leaf Q.
    all: first [ left; repeat split; reflexivity
               | right; left; repeat split; reflexivity
               | right; right; eexists; repeat split; reflexivity ].
  - cbn. left. auto.
  - cbn. intros []. left. auto.
Qed.

(* ================================================================= *)
(** ** Capture, then release, in the reference store *)


(** A search for a label that has exactly one record finds that record,
    with its data when the data is asked for. *)
Lemma world_query_one :
  forall (w : World.world) (q : Item) (l : string) (rec : World.SecretRecord),
    World.query_fault w = None ->
    itLabel q = Some l ->
    itMatchLimit q = Some MatchLimitOne ->
    filter (World.has_label l) (World.store w) = [rec] ->
    World.query q w = ([World.to_result (asks_data q) rec], None).
Proof.
  intros w q l rec Hf Hl Hm Hs. unfold World.query.
  rewrite Hf, Hl, Hm. cbn. rewrite Hs. reflexivity.
Qed.



(** Repeat access in the reference store, Touch ID allowing. *)
Lemma world_release_allowed :
  forall (w : World.world) (s : Settings) (label : string) (rec : World.SecretRecord),
    parse_label (Desc s) = Ret label ->
    World.query_fault w = None ->
    filter (World.has_label label) (World.store w) = [rec] ->
    World.touch w = (true, None) ->
    exists (tr : Trace) (w' : World.world),
      run World.env (GetPIN_callback s) w =
        (Returned (string_of_bytes (World.payload rec), None), tr, w') /\
      prompts_of tr = [] /\
      added_of tr = [] /\
      World.store w' = World.store w.
Proof.
  intros w s label rec Hp Hqf Hone Ht.
  unfold GetPIN_callback, GetPIN. rewrite Hp. cbn.
  rewrite (world_query_one w (check_query label) label rec Hqf eq_refl eq_refl Hone). cbn.
  rewrite Ht. cbn.
  rewrite (world_query_one w (read_query label) label rec Hqf eq_refl eq_refl Hone). cbn.
  unfold index. cbn.
  eexists. eexists. split; [ reflexivity | ]. auto.
Qed.

(** Repeat access in the reference store, Touch ID denying. *)
Lemma world_release_denied :
  forall (w : World.world) (s : Settings) (label : string) (rec : World.SecretRecord),
    parse_label (Desc s) = Ret label ->
    World.query_fault w = None ->
    filter (World.has_label label) (World.store w) = [rec] ->
    World.touch w = (false, None) ->
    exists (tr : Trace) (w' : World.world),
      run World.env (GetPIN_callback s) w = (Returned (EmptyString, None), tr, w') /\
      reads_of tr = [] /\
      World.store w' = World.store w /\
      World.query_fault w' = None.
Proof.
  intros w s label rec Hp Hqf Hone Ht.
  unfold GetPIN_callback, GetPIN. rewrite Hp. cbn.
  rewrite (world_query_one w (check_query label) label rec Hqf eq_refl eq_refl Hone). cbn.
  rewrite Ht. cbn.
  eexists. eexists. split; [ reflexivity | ]. auto.
Qed.



(** X9. A denial changes nothing, in the reference store.  With one record
    under the label, a call that Touch ID denies returns the empty string
    and leaves the store as it is; the next call for the same request,
    Touch ID allowing, returns the payload of the record. *)
Theorem denied_then_allowed :
  forall (w : World.world) (s : Settings) (label : string) (rec : World.SecretRecord),
    parse_label (Desc s) = Ret label ->
    World.query_fault w = None ->
    filter (World.has_label label) (World.store w) = [rec] ->
    World.touch w = (false, None) ->
    let r1 := run World.env (GetPIN_callback s) w in
    let r2 := run World.env (GetPIN_callback s) (with_touch (true, None) (state_of r1)) in
    outcome_of r1 = Returned (EmptyString, None) /\
    World.store (state_of r1) = World.store w /\
    outcome_of r2 = Returned (string_of_bytes (World.payload rec), None).
Proof.
  intros w s label rec Hp Hqf Hone Ht r1 r2. subst r1 r2.
  destruct (world_release_denied w s label rec Hp Hqf Hone Ht)
    as [tr1 [w1 [Hrun1 [_ [Hstore1 Hqf1]]]]].
  rewrite Hrun1. cbn [state_of outcome_of trace_of fst snd].
  destruct (world_release_allowed (with_touch (true, None) w1) s label rec Hp)
    as [tr2 [w2 [Hrun2 _]]]; cbn; try congruence.
  rewrite Hrun2. cbn [state_of outcome_of trace_of fst snd].
  auto.
Qed.

(* ================================================================= *)
(** ** What the patterns extract *)

Lemma length_append :
  forall a b : string, String.length (a ++ b) = String.length a + String.length b.
Proof.
  induction a as [| x a IH]; intros b; cbn; [ reflexivity | now rewrite IH ].
Qed.

Lemma substring_prefix :
  forall m s : string, substring 0 (String.length m) (m ++ s) = m.
Proof.
  induction m as [| x m IH]; intros s; cbn.
  - destruct s; reflexivity.
  - now rewrite IH.
Qed.

(** What a match consumed, read off the input and what is left of it. *)
Lemma consumed_eq :
  forall s m rest : string, s = m ++ rest -> consumed s rest = m.
Proof.
  intros s m rest ->. unfold consumed. rewrite length_append.
  replace (String.length m + String.length rest - String.length rest)
    with (String.length m) by lia.
  apply substring_prefix.
Qed.

Lemma append_split :
  forall a b c d : string,
    a ++ b = c ++ d ->
    (exists u, a = c ++ u /\ d = u ++ b) \/ (exists u, c = a ++ u /\ b = u ++ d).
Proof.
  induction a as [| x a IH]; intros b c d H; cbn in H.
  - right. exists c. auto.
  - destruct c as [| y c]; cbn in H.
    + left. exists (String x a). auto.
    + injection H as <- H. destruct (IH b c d H) as [[u [-> ->]] | [u [-> ->]]].
      * left. exists u. auto.
      * right. exists u. auto.
Qed.

Lemma line_lacks_suffix :
  forall (c : ascii) (u t : string),
    line_lacks c (u ++ t) = true -> lacks newline u = true -> line_lacks c t = true.
Proof.
  intros c. induction u as [| x u IH]; intros t H Hu; cbn in *; [ assumption | ].
  apply andb_true_iff in Hu. destruct Hu as [Hx Hu].
  apply negb_true_iff in Hx. rewrite Hx in H.
  apply andb_true_iff in H. destruct H as [_ H]. auto.
Qed.

Lemma line_lacks_head :
  forall (c : ascii) (t : string), line_lacks c (String c t) = true -> c = newline.
Proof.
  intros c t H. cbn in H. destruct (Ascii.eqb c newline) eqn:Hc.
  - now apply Ascii.eqb_eq.
  - rewrite Ascii.eqb_refl in H. discriminate H.
Qed.

Section Greedy.

Variable R : Type.

(** [.*] fails when what follows fails after every run it can take. *)
Lemma dotstar_all_none :
  forall (s : string) (k : string -> option R),
    (forall x t, s = x ++ t -> lacks newline x = true -> k t = None) ->
    dotstar s k = None.
Proof.
  induction s as [| c s IH]; intros k H; cbn.
  - apply (H EmptyString EmptyString); reflexivity.
  - destruct (Ascii.eqb c newline) eqn:Hc.
    + apply (H EmptyString (String c s)); reflexivity.
    + rewrite IH.
      * apply (H EmptyString (String c s)); reflexivity.
      * intros x t -> Hx. apply (H (String c x) t); [ reflexivity | ].
        cbn. now rewrite Hc.
Qed.

(** [.*] takes the longest run after which what follows succeeds. *)
Lemma dotstar_greedy :
  forall (m s : string) (k : string -> option R) (v : R),
    lacks newline m = true ->
    k s = Some v ->
    (forall x t, s = x ++ t -> x <> EmptyString -> lacks newline x = true -> k t = None) ->
    dotstar (m ++ s) k = Some v.
Proof.
  induction m as [| c m IH]; intros s k v Hm Hk Hlast; cbn.
  - destruct s as [| c s]; cbn; [ assumption | ].
    destruct (Ascii.eqb c newline) eqn:Hc; [ assumption | ].
    rewrite dotstar_all_none; [ assumption | ].
    intros x t -> Hx. apply (Hlast (String c x) t); [ reflexivity | discriminate | ].
    cbn. now rewrite Hc.
  - cbn in Hm. apply andb_true_iff in Hm. destruct Hm as [Hc Hm].
    apply negb_true_iff in Hc. rewrite Hc.
    now rewrite (IH s k v Hm Hk Hlast).
Qed.

End Greedy.

Lemma HasPrefix_append :
  forall (p s t : string),
    String.length p <= String.length s -> HasPrefix (s ++ t) p = HasPrefix s p.
Proof.
  induction p as [| a p IH]; intros s t Hlen; [ reflexivity | ].
  destruct s as [| b s]; cbn in Hlen; [ lia | ].
  cbn. rewrite IH by lia. reflexivity.
Qed.

(** The search skips a text in which no match starts. *)
Lemma find_submatch_skip :
  forall (n : nat) (r : regex) (a rest : string),
    (forall u t, a = u ++ t -> t <> EmptyString -> match_here n r (t ++ rest) = None) ->
    find_submatch n r (a ++ rest) = find_submatch n r rest.
Proof.
  intros n r. induction a as [| x a IH]; intros rest H; [ reflexivity | ].
  assert (H0 : match_here n r (String x a ++ rest) = None).
  { apply (H EmptyString (String x a)); [ reflexivity | discriminate ]. }
  cbn [append] in H0. cbn [append find_submatch]. rewrite H0.
  apply IH. intros u t -> Ht. apply (H (String x u) t); [ reflexivity | assumption ].
Qed.

Arguments consumed : simpl never.

(** At an occurrence of [ID ] followed on the same line by a comma, the
    key pattern matches up to the last comma of the line. *)
Lemma match_here_keyID :
  forall k b : string,
    lacks newline k = true ->
    line_lacks "," b = true ->
    match_here keyIDRegex_groups keyIDRegex ("ID " ++ k ++ String "," b) =
      Some ["ID " ++ k ++ ","; k].
Proof.
  intros k b Hk Hb. unfold match_here, keyIDRegex, keyIDRegex_groups.
  cbn [rmatch append]. rewrite !Ascii.eqb_refl.
  apply dotstar_greedy; [ assumption | | ].
  - cbn. rewrite Ascii.eqb_refl. cbn. f_equal.
    rewrite (consumed_eq (String "I" (String "D" (String " " (k ++ String "," b))))
               ("ID " ++ k ++ ",") b).
    + rewrite (consumed_eq (k ++ String "," b) k (String "," b) eq_refl). reflexivity.
    + cbn. now rewrite append_assoc.
  - intros x t Hs Hx Hlx.
    destruct x as [| c x]; [ now elim Hx | ].
    cbn in Hs. injection Hs as <- Hs.
    destruct t as [| c' t]; [ reflexivity | ].
    destruct (Ascii.eqb "," c') eqn:Hc; [ | reflexivity ].
    apply Ascii.eqb_eq in Hc. subst c'. exfalso.
    cbn in Hlx. rewrite Hs in Hb.
    apply line_lacks_suffix in Hb; [ | assumption ].
    apply line_lacks_head in Hb. discriminate Hb.
Qed.

Lemma match_here_keyID_none :
  forall s : string,
    HasPrefix s "ID " = false -> match_here keyIDRegex_groups keyIDRegex s = None.
Proof.
  intros s H. unfold match_here, keyIDRegex. cbn [rmatch].
  destruct s as [| c1 s]; [ reflexivity | ].
  cbn in H. destruct (Ascii.eqb "I" c1); [ | reflexivity ].
  destruct s as [| c2 s]; [ reflexivity | ].
  cbn in H. destruct (Ascii.eqb "D" c2); [ | reflexivity ].
  destruct s as [| c3 s]; [ reflexivity | ].
  cbn in H. destruct (Ascii.eqb " " c3); [ discriminate H | reflexivity ].
Qed.

Lemma starts_inside_none :
  forall (p a u t : string),
    starts_inside p a = false -> a = u ++ t -> t <> EmptyString ->
    HasPrefix (t ++ p) p = false.
Proof.
  intros p. induction a as [| x a IH]; intros u t H Ha Ht.
  - destruct u; cbn in Ha; [ now subst t | discriminate Ha ].
  - cbn [starts_inside] in H. apply orb_false_iff in H. destruct H as [Hhere Hrest].
    destruct u as [| y u]; cbn in Ha.
    + subst t. exact Hhere.
    + injection Ha as _ Ha. exact (IH u t Hrest Ha Ht).
Qed.

(** The search of line 157 at the first [ID ] that a comma follows on
    its line. *)
Lemma find_key_id :
  forall a k b : string,
    starts_inside "ID " a = false ->
    lacks newline k = true ->
    line_lacks "," b = true ->
    find_submatch keyIDRegex_groups keyIDRegex (a ++ "ID " ++ k ++ "," ++ b) =
      Some ["ID " ++ k ++ ","; k].
Proof.
  intros a k b Ha Hk Hb. rewrite find_submatch_skip.
  - destruct ("ID " ++ k ++ "," ++ b) eqn:Hs; [ discriminate Hs | ].
    cbn [find_submatch]. rewrite <- Hs.
    change ("ID " ++ k ++ "," ++ b) with ("ID " ++ k ++ String "," b).
    now rewrite match_here_keyID.
  - intros u t Hut Ht. apply match_here_keyID_none.
    change (t ++ "ID " ++ k ++ "," ++ b) with (t ++ "ID " ++ (k ++ "," ++ b)).
    rewrite <- append_assoc. rewrite HasPrefix_append.
    + exact (starts_inside_none "ID " a u t Ha Hut Ht).
    + rewrite length_append. cbn. lia.
Qed.

(** X10. The key id is what stands between the first [ID ] and the last
    comma of its line.  When no [ID ] starts before the one in front of
    [k], [k] holds no newline and no comma follows on the line, the search
    of line 157 returns the match [ID k,] with [k] as its group. *)
Theorem key_id_is_first_ID_to_last_comma :
  forall a k b : string,
    starts_inside "ID " a = false ->
    lacks newline k = true ->
    line_lacks "," b = true ->
    FindStringSubmatch keyIDRegex_groups keyIDRegex (a ++ "ID " ++ k ++ "," ++ b) =
      ["ID " ++ k ++ ","; k] /\
    keyID_of (a ++ "ID " ++ k ++ "," ++ b) = k.
Proof.
  intros a k b Ha Hk Hb.
  unfold keyID_of, FindStringSubmatch.
  rewrite (find_key_id a k b Ha Hk Hb). split; reflexivity.
Qed.

Lemma line_lacks_found :
  forall (c : ascii) (u t : string),
    c <> newline -> lacks newline u = true -> line_lacks c (u ++ String c t) = false.
Proof.
  intros c u t Hc Hu. destruct (line_lacks c (u ++ String c t)) eqn:H; [ | reflexivity ].
  apply line_lacks_suffix in H; [ | assumption ].
  apply line_lacks_head in H. contradiction.
Qed.

Lemma user_text_shape :
  forall nm e t : string,
    nm ++ String "<" (e ++ String ">" t) = (nm ++ String "<" (e ++ ">")) ++ t.
Proof.
  intros nm e t. rewrite append_assoc. cbn. now rewrite append_assoc.
Qed.

(** At a double quote, the user pattern matches up to the last [>] that a
    double quote follows on the line, and its second group starts after
    the last [<] before it. *)
Lemma match_here_email :
  forall nm e b : string,
    lacks newline nm = true ->
    lacks newline e = true ->
    lacks "<" e = true ->
    line_lacks dquote b = true ->
    match_here emailRegex_groups emailRegex
      (String dquote (nm ++ String "<" (e ++ String ">" (String dquote b)))) =
      Some [quoted (nm ++ "<" ++ e ++ ">"); nm ++ "<" ++ e ++ ">"; e].
Proof.
  intros nm e b Hnm He Hlt Hb. unfold match_here, emailRegex, emailRegex_groups.
  assert (Hdq : dquote <> newline) by discriminate.
  cbn [rmatch]. rewrite Ascii.eqb_refl.
  apply dotstar_greedy; [ assumption | | ].
  - cbn beta. rewrite Ascii.eqb_refl.
    apply dotstar_greedy; [ assumption | | ].
    + cbn. rewrite !Ascii.eqb_refl. cbn. unfold quoted.
      rewrite (consumed_eq _ (String dquote ((nm ++ String "<" (e ++ ">")) ++ String dquote "")) b).
      * rewrite (consumed_eq _ (nm ++ String "<" (e ++ ">")) (String dquote b)
                   (user_text_shape nm e (String dquote b))).
        rewrite (consumed_eq _ e (String ">" (String dquote b)) eq_refl).
        reflexivity.
      * cbn. f_equal. rewrite user_text_shape. symmetry. apply append_assoc.
    + intros x t Hs Hx Hlx. cbn.
      destruct t as [| c1 t1]; [ reflexivity | ].
      destruct (Ascii.eqb ">" c1) eqn:H1; [ | reflexivity ].
      destruct t1 as [| c2 t2]; [ reflexivity | ].
      destruct (Ascii.eqb dquote c2) eqn:H2; [ | reflexivity ].
      apply Ascii.eqb_eq in H1, H2. subst c1 c2. exfalso.
      destruct x as [| y x]; [ now elim Hx | ].
      cbn in Hs. injection Hs as <- Hs.
      destruct x as [| y x]; cbn in Hs; [ discriminate Hs | ].
      injection Hs as <- Hs. cbn in Hlx.
      apply andb_true_iff in Hlx. destruct Hlx as [_ Hlx].
      apply andb_true_iff in Hlx. destruct Hlx as [_ Hlx].
      rewrite Hs in Hb. rewrite <- append_snoc in Hb.
      rewrite line_lacks_found in Hb; [ discriminate Hb | assumption | ].
      rewrite lacks_append, Hlx. reflexivity.
  - intros x t Hs Hx Hlx. cbn.
    destruct t as [| c1 t1]; [ reflexivity | ].
    destruct (Ascii.eqb "<" c1) eqn:H1; [ | reflexivity ].
    apply Ascii.eqb_eq in H1. subst c1.
    apply dotstar_all_none. intros x2 t2 Ht1 Hx2.
    destruct t2 as [| c2 t2]; [ reflexivity | ].
    destruct (Ascii.eqb ">" c2) eqn:H2; [ | reflexivity ].
    destruct t2 as [| c3 t3]; [ reflexivity | ].
    destruct (Ascii.eqb dquote c3) eqn:H3; [ | reflexivity ].
    apply Ascii.eqb_eq in H2, H3. subst c2 c3 t1. exfalso.
    destruct x as [| y x]; [ now elim Hx | ].
    cbn in Hs. injection Hs as <- Hs. cbn in Hlx.
    destruct (append_split _ _ _ _ Hs) as [[u [He' Hu]] | [u [Hx' Hu]]].
    + destruct u as [| c u]; cbn in Hu; [ discriminate Hu | ].
      injection Hu as <- _. rewrite He', lacks_append in Hlt. cbn in Hlt.
      rewrite Ascii.eqb_refl in Hlt. cbn in Hlt. rewrite andb_false_r in Hlt.
      discriminate Hlt.
    + destruct u as [| c u]; cbn in Hu; [ discriminate Hu | ].
      injection Hu as <- Hu.
      destruct u as [| c u]; cbn in Hu; [ discriminate Hu | ].
      injection Hu as <- Hu.
      rewrite Hx', lacks_append in Hlx. cbn in Hlx.
      repeat match goal with
             | H : _ && _ = true |- _ => apply andb_true_iff in H; destruct H
             end.
      assert (Hb' : b = (u ++ String "<" (x2 ++ ">")) ++ String dquote t3).
      { rewrite Hu. rewrite append_assoc. cbn. rewrite append_assoc. reflexivity. }
      rewrite Hb' in Hb.
      rewrite line_lacks_found in Hb; [ discriminate Hb | assumption | ].
      rewrite lacks_append. apply andb_true_iff. split; [ assumption | ].
      cbn. rewrite lacks_append, Hx2. reflexivity.
Qed.

Lemma match_here_email_none :
  forall (c : ascii) (s : string),
    c <> dquote -> match_here emailRegex_groups emailRegex (String c s) = None.
Proof.
  intros c s Hc. unfold match_here, emailRegex. cbn [rmatch].
  destruct (Ascii.eqb dquote c) eqn:H; [ | reflexivity ].
  apply Ascii.eqb_eq in H. now elim Hc.
Qed.

Lemma find_email_skip :
  forall a rest : string,
    lacks dquote a = true ->
    find_submatch emailRegex_groups emailRegex (a ++ rest) =
      find_submatch emailRegex_groups emailRegex rest.
Proof.
  intros a rest Ha. apply find_submatch_skip. intros u t -> Ht.
  rewrite lacks_append in Ha. apply andb_true_iff in Ha. destruct Ha as [_ Ha].
  destruct t as [| c t]; [ now elim Ht | ].
  cbn in Ha. apply andb_true_iff in Ha. destruct Ha as [Hc _].
  apply negb_true_iff, Ascii.eqb_neq in Hc.
  cbn [append]. now apply match_here_email_none.
Qed.

(** The search of line 153 at the first double quote. *)
Lemma find_user :
  forall a nm e b : string,
    lacks dquote a = true ->
    lacks newline nm = true ->
    lacks newline e = true ->
    lacks "<" e = true ->
    line_lacks dquote b = true ->
    find_submatch emailRegex_groups emailRegex
      (a ++ quoted (nm ++ "<" ++ e ++ ">") ++ b) =
      Some [quoted (nm ++ "<" ++ e ++ ">"); nm ++ "<" ++ e ++ ">"; e].
Proof.
  intros a nm e b Ha Hnm He Hlt Hb.
  rewrite find_email_skip by assumption.
  assert (Hshape : quoted (nm ++ "<" ++ e ++ ">") ++ b =
                     String dquote (nm ++ String "<" (e ++ String ">" (String dquote b)))).
  { unfold quoted. cbn. f_equal. rewrite (user_text_shape nm e (String dquote b)).
    exact (append_assoc (nm ++ String "<" (e ++ ">")) (String dquote EmptyString) b). }
  rewrite Hshape. cbn [find_submatch].
  now rewrite match_here_email.
Qed.

(** X11. The user is taken at the first double quote.  When no double
    quote stands before the quoted text, the text before [<] and the text
    between [<] and [>] hold no newline, the latter holds no [<] and no
    double quote follows on the line, the search of line 153 returns the
    quoted text, the text inside the quotes and the text between [<] and
    [>]. *)
Theorem user_is_first_quoted_text :
  forall a nm e b : string,
    lacks dquote a = true ->
    lacks newline nm = true ->
    lacks newline e = true ->
    lacks "<" e = true ->
    line_lacks dquote b = true ->
    FindStringSubmatch emailRegex_groups emailRegex
      (a ++ quoted (nm ++ "<" ++ e ++ ">") ++ b) =
      [quoted (nm ++ "<" ++ e ++ ">"); nm ++ "<" ++ e ++ ">"; e].
Proof.
  intros a nm e b Ha Hnm He Hlt Hb. unfold FindStringSubmatch.
  now rewrite (find_user a nm e b Ha Hnm He Hlt Hb).
Qed.

(** The first piece of [strings.Split(s, " <")] is what stands before the
    first [ <]. *)
Lemma Split_name :
  forall (name rest cur : string),
    lacks "<" name = true ->
    exists ps, split_scan " <" 0 cur (name ++ " <" ++ rest) = (cur ++ name) :: ps.
Proof.
  induction name as [| x name IH]; intros rest cur Hn.
  - cbn. rewrite !Ascii.eqb_refl. cbn. rewrite append_empty_r. eauto.
  - cbn in Hn. apply andb_true_iff in Hn. destruct Hn as [Hx Hn].
    cbn [append split_scan].
    assert (Hno : HasPrefix (String x (name ++ " <" ++ rest)) " <" = false).
    { cbn. destruct name as [| y name]; cbn.
      - destruct (Ascii.eqb " " x); reflexivity.
      - cbn in Hn. apply andb_true_iff in Hn. destruct Hn as [Hy _].
        apply negb_true_iff in Hy. rewrite Ascii.eqb_sym in Hy. rewrite Hy.
        now rewrite andb_false_r. }
    cbn [append] in Hno. rewrite Hno. destruct (IH rest (cur ++ String x EmptyString) Hn) as [ps Hps].
    cbn [append] in Hps. rewrite Hps. rewrite append_snoc. eauto.
Qed.

(** X12. The label of a description worded as gpg-agent words it.  Take a
    description with the user [name <e>] in double quotes at the end of a
    line and, later, [ID k,].  When no double quote stands before the
    user, [name] and [e] hold no newline and no [<], no [ID ] starts
    before the one in front of [k], [k] holds no newline and is 8 or 16
    bytes long and no comma follows it on its line, [parse_label] returns
    [name <e> (k)]. *)
Theorem label_of_gpg_description :
  forall a name e b k c : string,
    lacks dquote a = true ->
    lacks newline name = true ->
    lacks "<" name = true ->
    lacks newline e = true ->
    lacks "<" e = true ->
    starts_inside "ID " (a ++ quoted (name ++ " <" ++ e ++ ">") ++ nl ++ b) = false ->
    lacks newline k = true ->
    line_lacks "," c = true ->
    String.length k = 8 \/ String.length k = 16 ->
    parse_label
      (a ++ quoted (name ++ " <" ++ e ++ ">") ++ nl ++ b ++ "ID " ++ k ++ "," ++ c) =
      Ret (name ++ " <" ++ e ++ "> (" ++ k ++ ")").
Proof.
  intros a name e b k c Ha Hname Hnlt He Helt Hid Hk Hc Hlen.
  set (desc := a ++ quoted (name ++ " <" ++ e ++ ">") ++ nl ++ b ++ "ID " ++ k ++ "," ++ c).
  assert (Huser : FindStringSubmatch emailRegex_groups emailRegex desc =
                    [quoted (name ++ " <" ++ e ++ ">"); name ++ " <" ++ e ++ ">"; e]).
  { subst desc. unfold FindStringSubmatch.
    pose proof (find_user a (name ++ " ") e
                  (nl ++ b ++ "ID " ++ k ++ "," ++ c) Ha) as H.
    replace ((name ++ " ") ++ "<" ++ e ++ ">") with (name ++ " <" ++ e ++ ">") in H
      by (now rewrite append_assoc).
    rewrite H; try assumption; [ reflexivity | | reflexivity ].
    rewrite lacks_append, Hname. reflexivity. }
  assert (Hkey : FindStringSubmatch keyIDRegex_groups keyIDRegex desc =
                   ["ID " ++ k ++ ","; k]).
  { subst desc. unfold FindStringSubmatch.
    pose proof (find_key_id
                  (a ++ quoted (name ++ " <" ++ e ++ ">") ++ nl ++ b) k c Hid Hk Hc) as H.
    rewrite !append_assoc in H. now rewrite H. }
  unfold parse_label. rewrite Huser, Hkey.
  destruct (Split_name name (e ++ ">") EmptyString Hnlt) as [ps Hps].
  unfold index, Split. cbn [nth_error bind]. rewrite Hps. cbn [nth_error bind append].
  assert (Hgood : negb (Nat.eqb (String.length k) 8) && negb (Nat.eqb (String.length k) 16)
                  = false).
  { destruct Hlen as [-> | ->]; reflexivity. }
  rewrite Hgood. reflexivity.
Qed.

(* ================================================================= *)
(** ** How a call can end *)

Lemma parse_label_endings :
  forall desc : string,
    (exists l, parse_label desc = Ret l) \/
    parse_label desc = Panic (IndexOutOfRange 1 0) \/
    (exists k, parse_label desc = logger_Fatalf "Invalid keyID: %s" [ArgString k]).
Proof.
  intros desc. pose proof (parse_label_shape desc) as H.
  destruct (find_submatch emailRegex_groups emailRegex desc); [ | auto ].
  destruct (find_submatch keyIDRegex_groups keyIDRegex desc); [ | auto ].
  destruct (bad_length (keyID_of desc)); eauto.
Qed.

Lemma Split_without_slash :
  forall k : string,
    nth_error (Split k "/") 1 = None ->
    lacks "/" k = true /\ List.length (Split k "/") = 1.
Proof.
  intros k Hn. destruct (lacks "/" k) eqn:Hl.
  - split; [ reflexivity | ]. unfold Split. now rewrite split_scan_lacks.
  - destruct (Split_slash_second_exists k Hl) as [v Hv]. rewrite Hv in Hn. discriminate Hn.
Qed.

(** X13. The ways a call ends.  A call that returns hands back a nil
    error, whatever happened.  A call that ends the process by exit does
    so with status 1 after a line written through the logger it was
    given.  A call that panics does so on index 1 of a missing match, on
    index 1 of key information without a slash, or on index 0 of an empty
    keychain answer. *)
Theorem callback_endings :
  forall (env : Env) (st : St env) (s : Settings),
    let r := run env (GetPIN_callback s) st in
    match outcome_of r with
    | Returned (_, e) => e = None
    | Exited c =>
        c = 1%Z /\
        exists f a, last (log_of (trace_of r)) (StdLine EmptyString []) = FileLine f a
    | Panicked p =>
        p = IndexOutOfRange 1 0 \/
        (p = IndexOutOfRange 1 1 /\ lacks "/" (KeyInfo s) = true) \/
        p = IndexOutOfRange 0 0
    end.
Proof.
  intros env st s r. subst r. by_wp.
  unfold GetPIN_callback, GetPIN.
  destruct (parse_label_endings (Desc s)) as [[l Hp] | [Hp | [k Hp]]]; rewrite Hp.
  - match goal with |- wp _ ?P => remember P as Q eqn:HQ end.
    repeat wp_step; wp_leaf Q.
    all: try reflexivity.
    all: try (split; [ reflexivity | eauto ]).
    all: try (destruct (Split_without_slash _ Hidx) as [Hl ->]; auto).
    all: auto.
  - cbn. auto.
  - cbn. intros []. split; eauto.
Qed.

(** X14. Key information without a slash loses the pin.  On first capture
    with a non-empty pin, when the key information holds no slash the call
    panics on index 1 of the split key information, after the prompt and
    before the second existence check: nothing is added to the keychain
    and nothing is returned. *)
Theorem key_info_without_slash_panics :
  forall (env : Env) (st : St env) (s : Settings) (label : string),
    parse_label (Desc s) = Ret label ->
    lacks "/" (KeyInfo s) = true ->
    let r := run env (GetPIN_callback s) st in
    forall (a1 : list QueryResult * option error)
           (rest : list (Item * (list QueryResult * option error)))
           (pin : bytes) (perr : option error),
      query_answers (trace_of r) = (check_query label, a1) :: rest ->
      says_absent a1 = true ->
      prompts_of (trace_of r) = [(pin, perr)] ->
      pin <> [] ->
      outcome_of r = Panicked (IndexOutOfRange 1 1) /\
      rest = [] /\
      add_answers (trace_of r) = [].
Proof.
  intros env st s label Hp Hl r. subst r.
  assert (Hsplit : Split (KeyInfo s) "/" = [KeyInfo s]).
  { unfold Split. now rewrite split_scan_lacks. }
  by_wp. unfold GetPIN_callback, GetPIN. rewrite Hp.
  match goal with |- wp _ ?P => remember P as Q eqn:HQ end.
  repeat wp_step; wp_leaf Q.
  all: intros a1 rest pin0 perr Hq Ha1 Hpr Hpin; try absurd_path.
  all: try (rewrite Hsplit in Hidx; cbn in Hidx; discriminate Hidx).
  all: injection Hpr as <- <-; try absurd_path.
  all: injection Hq as <- <-; rewrite ?Hsplit; auto.
Qed.

Lemma key_info_without_slash_panics_witness :
  outcome_of (run World.env (GetPIN_callback no_slash) (World.fresh pin1234))
    = Panicked (IndexOutOfRange 1 1).
Proof.
  assert (Hp : parse_label (Desc no_slash) = Ret alice_label) by reflexivity.
  assert (Hpin : pin1234 <> []) by discriminate.
  exact (proj1 (key_info_without_slash_panics World.env (World.fresh pin1234) no_slash
                  alice_label Hp eq_refl ([], None) [] pin1234 None
                  eq_refl eq_refl eq_refl Hpin)).
Defined.

(* ================================================================= *)
(** ** What the log holds *)

Lemma parse_label_endings_key :
  forall desc : string,
    (exists l, parse_label desc = Ret l) \/
    parse_label desc = Panic (IndexOutOfRange 1 0) \/
    parse_label desc = logger_Fatalf "Invalid keyID: %s" [ArgString (keyID_of desc)].
Proof.
  intros desc. pose proof (parse_label_shape desc) as H.
  destruct (find_submatch emailRegex_groups emailRegex desc); [ | auto ].
  destruct (find_submatch keyIDRegex_groups keyIDRegex desc); [ | auto ].
  destruct (bad_length (keyID_of desc)); auto.
Qed.

(** An argument of a log line is one of the four kinds of [loggable]. *)
Ltac loggable_arg :=
  unfold loggable; cbn;
  first
    [ left; reflexivity
    | right; left; eexists; (split; [ | reflexivity ]); cbn; solve [ auto 8 ]
    | right; right; left; do 2 eexists;
      (split; [ | split; [ | reflexivity ] ]); cbn; solve [ auto 8 ]
    | right; right; right; reflexivity ].

Ltac known_format :=
  cbn; repeat first [ left; reflexivity | right ].

Ltac log_lines :=
  repeat first
    [ apply Forall_nil
    | apply Forall_cons;
      [ split;
        [ known_format
        | repeat first [ apply Forall_nil | apply Forall_cons; [ loggable_arg | ] ] ]
      | ] ].

Lemma script_alike : alike Script.env Script.env same_script.
Proof.
  intros X1 X2 e1 e2 a b Hc HR. pose proof HR as [Hq [Ha [Hu [Hs Hp]]]].
  destruct e1; destruct e2; try discriminate Hc; cbn.
  - destruct (Script.queries a) as [| qa qas] eqn:Ea;
      destruct (Script.queries b) as [| qb qbs] eqn:Eb;
      cbn in Hq; try discriminate Hq; cbn.
    + split; [ reflexivity | exact HR ].
    + injection Hq as Hf He Ht.
      split; [ now rewrite Hf, He | ]. unfold same_script. cbn. auto.
  - destruct (Script.adds a) as [| aa aas] eqn:Ea;
      destruct (Script.adds b) as [| ab abs] eqn:Eb;
      try discriminate Ha; cbn.
    + split; [ reflexivity | exact HR ].
    + injection Ha as Hh Ht.
      split; [ now rewrite Hh | ]. unfold same_script. cbn. auto.
  - destruct (Script.auths a) as [| ua uas] eqn:Ea;
      destruct (Script.auths b) as [| ub ubs] eqn:Eb;
      try discriminate Hu; cbn.
    + split; [ reflexivity | exact HR ].
    + injection Hu as Hh Ht.
      split; [ now rewrite Hh | ]. unfold same_script. cbn. auto.
  - split; [ now rewrite Hs | exact HR ].
  - split; [ reflexivity | exact HR ].
  - split; [ reflexivity | exact HR ].
  - destruct (Script.pins a) as [| pa pas] eqn:Ea;
      destruct (Script.pins b) as [| pb pbs] eqn:Eb;
      cbn in Hp; try discriminate Hp; cbn.
    + split; [ reflexivity | exact HR ].
    + injection Hp as Hf He Ht.
      split; [ now rewrite Hf, He | ]. unfold same_script. cbn. auto.
  - split; [ reflexivity | exact HR ].
  - split; [ reflexivity | exact HR ].
  - split; [ reflexivity | exact HR ].
Qed.

(** C5, as the code has it.  [GetPIN] writes no secret bytes to the log
    of its own: every log line has one of the nine formats of the source,
    and each argument is the key id found in the description or an error
    value that the keychain, Touch ID or pinentry-mac answered in this
    run, written out as it came (inside the error of [askForPassword]
    when pinentry-mac did not start), or the error of
    [passwordFromKeychain] for several results.  So the log depends on
    the collaborators' error values, and on nothing else they answer
    beyond what decides the path: in two environments that answer alike
    apart from the secret bytes (same attributes, same booleans, same
    error values; of the pin only whether there is one), the two runs on
    the same request write the same log lines, make the same calls apart
    from the data of the item they add, and end alike apart from the
    secret they return. *)
Theorem log_free_of_secret_bytes :
  (forall (env : Env) (st : St env) (s : Settings),
     let tr := trace_of (run env (GetPIN_callback s) st) in
     Forall (fun l : LogLine =>
               In (line_format l) log_formats /\
               Forall (loggable s tr) (line_args l))
            (log_of tr)) /\
  (forall (env1 env2 : Env) (R : St env1 -> St env2 -> Prop)
          (st1 : St env1) (st2 : St env2) (s : Settings),
     alike env1 env2 R ->
     R st1 st2 ->
     let r1 := run env1 (GetPIN_callback s) st1 in
     let r2 := run env2 (GetPIN_callback s) st2 in
     log_of (trace_of r1) = log_of (trace_of r2) /\
     public_calls (trace_of r1) = public_calls (trace_of r2) /\
     public_outcome (outcome_of r1) = public_outcome (outcome_of r2)).
Proof.
  split.
  - intros env st s tr. subst tr. by_wp_trace.
    unfold GetPIN_callback, GetPIN.
    destruct (parse_label_endings_key (Desc s)) as [[l Hp] | [Hp | Hp]]; rewrite Hp.
    + match goal with |- wp _ ?P => remember P as Q eqn:HQ end.
      repeat wp_step; wp_leaf Q.
      all: log_lines.
    + cbn. apply Forall_nil.
    + cbn. intros []. cbn. log_lines.
  - intros env1 env2 R st1 st2 s Hal HR r1 r2. subst r1 r2.
    destruct (lowsim_alike _ _ (GetPIN_lowsim s) env1 env2 R Hal st1 st2 HR) as [Hc Ho].
    split; [ | split; assumption ].
    rewrite !log_of_public_calls, Hc. reflexivity.
Qed.

(* ================================================================= *)
(** ** The properties above on the scenarios *)

Lemma existence_check_error_is_fatal_witness :
  outcome_of (run Script.env (GetPIN_callback alice) check_fails) = Exited 1 /\
  prompts_of (trace_of (run Script.env (GetPIN_callback alice) check_fails)) = [] /\
  outcome_of (run Script.env (GetPIN_callback alice) recheck_fails) = Exited 1 /\
  add_answers (trace_of (run Script.env (GetPIN_callback alice) recheck_fails)) = [].
Proof.
  assert (Hp : parse_label (Desc alice) = Ret alice_label) by reflexivity.
  destruct (existence_check_error_is_fatal Script.env check_fails alice alice_label Hp)
    as [H1 _].
  destruct (existence_check_error_is_fatal Script.env recheck_fails alice alice_label Hp)
    as [_ H2].
  destruct (H1 [] read_error [] eq_refl) as [Ho [_ [_ [Hpr _]]]].
  destruct (H2 ([], None) [] read_error [] eq_refl) as [Ho2 [_ [Hadd _]]].
  repeat split; assumption.
Defined.

Lemma touch_id_error_is_fatal_witness :
  outcome_of (run Script.env (GetPIN_callback alice) touch_fails) = Exited 1 /\
  reads_of (trace_of (run Script.env (GetPIN_callback alice) touch_fails)) = [].
Proof.
  destruct (touch_id_error_is_fatal Script.env touch_fails alice true lockout eq_refl)
    as [Ho [Hr _]].
  split; assumption.
Defined.

Lemma release_returns_stored_data_witness :
  outcome_of (run Script.env (GetPIN_callback alice) stored_1234) = Returned ("1234", None).
Proof.
  assert (Hp : parse_label (Desc alice) = Ret alice_label) by reflexivity.
  exact (proj1 (proj2 (release_returns_stored_data Script.env stored_1234 alice alice_label Hp
                         (a_result []) (a_result pin1234) eq_refl))).
Defined.

Lemma keychain_calls_address_the_label_witness :
  let i := store_item alice_label alice_cache_id pin1234 in
  itLabel i = Some alice_label /\ itData i = Some pin1234.
Proof.
  intros i.
  assert (Hp : parse_label (Desc alice) = Ret alice_label) by reflexivity.
  destruct (keychain_calls_address_the_label World.env (World.fresh pin1234) alice
              alice_label Hp) as [_ H].
  destruct (H i) as [Hl [_ [_ [_ [_ [pin [perr [Hpr [_ Hd]]]]]]]]].
  - left. reflexivity.
  - split; [ exact Hl | ]. injection Hpr as <- _. exact Hd.
Defined.

Lemma prompt_description_is_escaped_witness :
  lacks newline alice_desc = false /\
  escape_newlines "a
b" = "a\nb" /\
  ReplaceAll alice_desc nl "\n" = escape_newlines alice_desc /\
  lacks newline (ReplaceAll alice_desc nl "\n") = true.
Proof.
  split; [ reflexivity | ]. split; [ reflexivity | ].
  destruct (prompt_description_is_escaped World.env (World.fresh pin1234) alice) as [H _].
  destruct (H (ReplaceAll alice_desc nl "\n")) as [Hv [Hl _]].
  - right. left. reflexivity.
  - split; [ exact Hv | exact Hl ].
Defined.


Lemma denied_then_allowed_witness :
  let w := with_touch (false, None)
             (World.with_store [captured_record alice_label alice_cache_id pin1234]
                (World.fresh [])) in
  let r1 := run World.env (GetPIN_callback alice) w in
  outcome_of r1 = Returned (EmptyString, None) /\
  outcome_of (run World.env (GetPIN_callback alice) (with_touch (true, None) (state_of r1)))
    = Returned ("1234", None).
Proof.
  intros w r1.
  assert (Hp : parse_label (Desc alice) = Ret alice_label) by reflexivity.
  destruct (denied_then_allowed w alice alice_label
              (captured_record alice_label alice_cache_id pin1234)
              Hp eq_refl eq_refl eq_refl) as [Ho [_ Ho2]].
  split; [ exact Ho | exact Ho2 ].
Defined.

Lemma key_id_is_first_ID_to_last_comma_witness :
  keyID_of (gpg_intro ++ "255-bit EDDSA key, ID " ++ key16 ++ ", created 2020-01-01," ++ nl)
    = key16 ++ ", created 2020-01-01".
Proof.
  apply (key_id_is_first_ID_to_last_comma (gpg_intro ++ "255-bit EDDSA key, ")
           (key16 ++ ", created 2020-01-01") nl); reflexivity.
Defined.

Lemma user_is_first_quoted_text_witness :
  FindStringSubmatch emailRegex_groups emailRegex alice_desc =
    [quoted user_alice; user_alice; "alice@example.com"].
Proof.
  exact (user_is_first_quoted_text gpg_intro "Alice " "alice@example.com"
           (nl ++ "2048-bit RSA key, ID " ++ key8 ++ "," ++ nl ++ "created 2020-01-01.")
           eq_refl eq_refl eq_refl eq_refl eq_refl).
Defined.

Lemma label_of_gpg_description_witness :
  parse_label alice_desc = Ret alice_label.
Proof.
  exact (label_of_gpg_description gpg_intro "Alice" "alice@example.com"
           "2048-bit RSA key, " key8 (nl ++ "created 2020-01-01.")
           eq_refl eq_refl eq_refl eq_refl eq_refl eq_refl eq_refl eq_refl
           (or_introl eq_refl)).
Defined.

Lemma log_free_of_secret_bytes_witness :
  let r1 := run Script.env (GetPIN_callback alice) (noisy_capture pin1234) in
  let r2 := run Script.env (GetPIN_callback alice) (noisy_capture pin98765) in
  let r3 := run Script.env (GetPIN_callback alice) (stored_as pin1234) in
  let r4 := run Script.env (GetPIN_callback alice) (stored_as pin98765) in
  (outcome_of r1 = Returned ("1234", None) /\
   outcome_of r2 = Returned ("98765", None) /\
   log_of (trace_of r1) =
     [FileLine "Error calling pinentry-mac: %s" [ArgError helper_timeout]] /\
   log_of (trace_of r1) = log_of (trace_of r2)) /\
  (outcome_of r3 = Returned ("1234", None) /\
   outcome_of r4 = Returned ("98765", None) /\
   log_of (trace_of r3) = [] /\
   log_of (trace_of r3) = log_of (trace_of r4)).
Proof.
  intros r1 r2 r3 r4.
  split; (split; [ reflexivity | ]; split; [ reflexivity | ]; split; [ reflexivity | ]).
  - apply (proj2 log_free_of_secret_bytes Script.env Script.env same_script
             (noisy_capture pin1234) (noisy_capture pin98765) alice script_alike).
    unfold same_script. cbn. auto.
  - apply (proj2 log_free_of_secret_bytes Script.env Script.env same_script
             (stored_as pin1234) (stored_as pin98765) alice script_alike).
    unfold same_script. cbn. auto.
Defined.

(** C5 as claimed fails: pinentry-mac repeats what was typed in the error
    it reports, the callback writes that error to the log, and two runs
    that differ in the typed bytes only write different log lines.  What
    is logged is an error value. *)
Lemma log_follows_helper_error_counterexample :
  let r1 := run Echo.env (GetPIN_callback alice) pin1234 in
  let r2 := run Echo.env (GetPIN_callback alice) pin98765 in
  outcome_of r1 = Returned ("1234", None) /\
  outcome_of r2 = Returned ("98765", None) /\
  log_of (trace_of r1) =
    [FileLine "Error calling pinentry-mac: %s"
       [ArgError (OpaqueError "unexpected response: 1234")]] /\
  log_of (trace_of r2) =
    [FileLine "Error calling pinentry-mac: %s"
       [ArgError (OpaqueError "unexpected response: 98765")]] /\
  log_of (trace_of r1) <> log_of (trace_of r2).
Proof.
  cbv zeta. repeat (split; [ reflexivity | ]).
  intros H. vm_compute in H. discriminate H.
Qed.
